(** * reamp-player: the event base class, source selection and the
      multi-track playback engine of [player.js]

    The development embeds [XObject] and [PlayerEngine] of [player.js].
    The engine is stateful JavaScript: every method is a computation in a
    small state / exception / output monad.  A thrown exception keeps the
    mutations made before it (a JavaScript [TypeError] does not roll back
    the object), and the output is the sequence of listener invocations
    made by [emitEvent].

    Host services are modelled as far as the engine drives them:
    - the audio graph ([AudioContext]) is a store of gain and buffer-source
      nodes addressed by handles, so that the session held in
      [playbackCtx] aliases the nodes of the graph;
    - [Audio.canPlayType] is a parameter of the selection function;
    - listeners are opaque: an invocation is recorded, and a listener is
      assumed to return normally without re-entering the engine.

    The listener table [events] is read as the code reads it, through its
    prototype chain: a name that is not an own property resolves to what
    ECMAScript's [Object.prototype] holds under it.  The [sources] object
    of a track is read by MIME-type names, which are own properties or
    absent. *)

From stdpp Require Import gmap strings list fin_maps pretty.
From Stdlib Require Import ZArith.

Open Scope Z_scope.

(** ** Exceptions, outcomes and the method monad *)

Inductive Error := TypeError | InvalidStateError.

Inductive Outcome (A : Type) :=
| Returned (a : A)
| Thrown (e : Error).
Arguments Returned {A} a.
Arguments Thrown {A} e.

(** A listener is a host function; only its identity matters here. *)
Definition Callback := nat.

(** The values handed to listeners: [{}] for [trackLoaded], the track
    number for [trackChanged]. *)
Inductive Data := DObject | DNum (n : Z).

Definition Call : Type := Callback * Data.

Record Run (St A : Type) := mkRun {
  outcome : Outcome A;
  final : St;
  calls : list Call
}.
Arguments mkRun {St A} outcome final calls.
Arguments outcome {St A} r.
Arguments final {St A} r.
Arguments calls {St A} r.

Definition M (St A : Type) : Type := St → Run St A.

Definition ret {St A} (a : A) : M St A := λ s, mkRun (Returned a) s [].

Definition throw {St A} (e : Error) : M St A := λ s, mkRun (Thrown e) s [].

Definition bind {St A B} (m : M St A) (k : A → M St B) : M St B := λ s,
  let r := m s in
  match outcome r with
  | Returned a =>
      let r' := k a (final r) in
      mkRun (outcome r') (final r') (calls r ++ calls r')
  | Thrown e => mkRun (Thrown e) (final r) (calls r)
  end.

#[export] Instance M_ret {St} : MRet (M St) := λ A, ret.
#[export] Instance M_bind {St} : MBind (M St) := λ A B k m, bind m k.

Definition gets {St A} (f : St → A) : M St A := λ s, mkRun (Returned (f s)) s [].

Definition modify {St} (f : St → St) : M St unit := λ s, mkRun (Returned tt) (f s) [].

(** [callback.call(this, data)] for an opaque listener. *)
Definition invoke {St} (cb : Callback) (d : Data) : M St unit :=
  λ s, mkRun (Returned tt) s [(cb, d)].

(** Reading a property of [undefined] throws a [TypeError]. *)
Definition defined {St A} (o : option A) : M St A :=
  match o with
  | Some a => ret a
  | None => throw TypeError
  end.

(** [for (var i = lo; i < lo + n; i++) body(i)], [n] iterations left. *)
Fixpoint for_loop {St} (n : nat) (i : nat) (body : nat → M St unit) : M St unit :=
  match n with
  | O => ret tt
  | S n' => body i ;; for_loop n' (S i) body
  end.

(** ** JavaScript arrays

    The elements of an array are a list of slots; a hole (or
    [undefined]) is [None].  Reading an element outside the list yields
    [undefined]; writing beyond the end extends the list with holes.  An
    assignment at a negative index does not touch the elements: it gives
    the array object a property of that name. *)
Module JSArray.

(** [a[i]] on the elements of an array without further properties. *)
Definition get {A} (a : list (option A)) (i : Z) : option A :=
  if i <? 0 then None else mjoin (a !! Z.to_nat i).

Definition set_nat {A} (a : list (option A)) (i : nat) (v : A) : list (option A) :=
  if (i <? length a)%nat then <[i := Some v]> a
  else a ++ replicate (i - length a)%nat None ++ [Some v].

(** An array object: its elements, and the properties it was given under
    negative integers. *)
Record t (A : Type) := mk {
  elems : list (option A);
  props : gmap Z A
}.
Arguments mk {A} elems props.
Arguments elems {A} t.
Arguments props {A} t.

(** [[]] *)
Definition empty {A} : t A := mk [] ∅.

(** [a[i] = v]: a negative index names an ordinary property, not an
    element. *)
Definition set {A} (a : t A) (i : Z) (v : A) : t A :=
  if i <? 0 then mk (elems a) (<[i := v]> (props a))
  else mk (set_nat (elems a) (Z.to_nat i) v) (props a).

(** [a[i]] on an array object. *)
Definition read {A} (a : t A) (i : Z) : option A :=
  if i <? 0 then props a !! i else get (elems a) i.

(** [a.indexOf(x)]: position of the first element equal to [x], or -1. *)
Fixpoint indexOf_from {A} `{EqDecision A} (x : A) (a : list A) (i : Z) : Z :=
  match a with
  | [] => -1
  | y :: a' => if decide (y = x) then i else indexOf_from x a' (i + 1)
  end.

Definition indexOf {A} `{EqDecision A} (x : A) (a : list A) : Z :=
  indexOf_from x a 0.

End JSArray.

(** An array object is read through its elements. *)
Coercion JSArray.elems : JSArray.t >-> list.

(** ** XObject: base class that supports events *)
Module XObject.

(** The listener table [this.events]: its own properties, each an array
    of listeners.  The entry under ["__proto__"], when there is one, is
    the array that an assignment [this.events["__proto__"] = []] has made
    the prototype of the table (the assignment runs the setter inherited
    from [Object.prototype]); reading [this.events["__proto__"]] yields
    that array. *)
Record t := mk { events : gmap string (list Callback) }.

(** [function XObject() { this.events = {}; }] *)
Definition new : t := mk ∅.

(** What [this.events[evt]] yields: [undefined], an array of listeners,
    or some other value, which has no [push] and whose [length] is the
    given number ([None] when it has no numeric [length]). *)
Inductive Slot :=
| SUndefined
| SArray (l : list Callback)
| SValue (len : option nat).

(** Modelled from the host: the methods of ECMAScript's
    [Object.prototype], with the [length] of each function. *)
Definition object_prototype : list (string * nat) :=
  [("constructor", 1); ("hasOwnProperty", 1); ("isPrototypeOf", 1);
   ("propertyIsEnumerable", 1); ("toLocaleString", 0); ("toString", 0);
   ("valueOf", 0); ("__defineGetter__", 2); ("__defineSetter__", 2);
   ("__lookupGetter__", 1); ("__lookupSetter__", 1)]%nat.

(** Modelled from the host: the methods of ECMAScript's
    [Array.prototype], with the [length] of each function. *)
Definition array_prototype : list (string * nat) :=
  [("at", 1); ("concat", 1); ("constructor", 1); ("copyWithin", 2); ("entries", 0);
   ("every", 1); ("fill", 1); ("filter", 1); ("find", 1); ("findIndex", 1);
   ("findLast", 1); ("findLastIndex", 1); ("flat", 0); ("flatMap", 1);
   ("forEach", 1); ("includes", 1); ("indexOf", 1); ("join", 1); ("keys", 0);
   ("lastIndexOf", 1); ("map", 1); ("pop", 0); ("push", 1); ("reduce", 1);
   ("reduceRight", 1); ("reverse", 0); ("shift", 0); ("slice", 2); ("some", 1);
   ("sort", 1); ("splice", 2); ("toLocaleString", 0); ("toReversed", 0);
   ("toSorted", 1); ("toSpliced", 2); ("toString", 0); ("unshift", 1);
   ("values", 0); ("with", 2)]%nat.

(** The [length] of a listener function: the listeners of this repository
    are bound methods of one parameter ([onTrackChanged.bind(this)]). *)
Definition listener_length : nat := 1.

Fixpoint method_length (name : string) (table : list (string * nat)) : option nat :=
  match table with
  | [] => None
  | (k, n) :: rest => if decide (k = name) then Some n else method_length name rest
  end.

(** A name that reaches [Object.prototype]. *)
Definition inherited_from_object (evt : string) : Slot :=
  match method_length evt object_prototype with
  | Some n => SValue (Some n)
  | None => SUndefined
  end.

(** A name looked up in the array [p] that is the prototype of the
    table: its [length] is a number, its indices hold listeners, and its
    own prototype is [Array.prototype], then [Object.prototype]. *)
Definition inherited_from_array (p : list Callback) (evt : string) : Slot :=
  if decide (evt = "length") then SValue None
  else if bool_decide (evt ∈ (pretty <$> seq 0 (length p))) then SValue (Some listener_length)
  else match method_length evt array_prototype with
       | Some n => SValue (Some n)
       | None => inherited_from_object evt
       end.

(** [this.events[evt]] *)
Definition lookup (o : t) (evt : string) : Slot :=
  match events o !! evt with
  | Some l => SArray l
  | None =>
      if decide (evt = "__proto__") then SValue None
      else match events o !! "__proto__" with
           | Some p => inherited_from_array p evt
           | None => inherited_from_object evt
           end
  end.

(** [v.length] as the bound of a loop ([i < undefined] is false). *)
Definition slot_length (v : Slot) : nat :=
  match v with
  | SArray l => length l
  | SValue (Some n) => n
  | SValue None | SUndefined => O
  end.

(** [v[i]] *)
Definition slot_item (v : Slot) (i : nat) : option Callback :=
  match v with
  | SArray l => l !! i
  | SValue _ | SUndefined => None
  end.

(** Reading a property of [this.events[evt]] throws when it is
    [undefined]. *)
Definition slot_of (evt : string) : M t Slot :=
  v ← gets (λ o, lookup o evt);
  match v with
  | SUndefined => throw TypeError
  | _ => mret v
  end.

(** [this.events[evt].push(callback)]: only an array has [push]. *)
Definition addEventListener (evt : string) (callback : Callback) : M t unit :=
  v ← slot_of evt;
  match v with
  | SArray l => modify (λ o, mk (<[evt := l ++ [callback]]> (events o)))
  | _ => throw TypeError
  end.

(** One iteration of the loop of [emitEvent]. *)
Definition emit_body (evt : string) (data : Data) (i : nat) : M t unit :=
  v ← slot_of evt;
  callback ← defined (slot_item v i);
  invoke callback data.

(** [for (var i = 0; i < this.events[evt].length; i++) ...] *)
Definition emitEvent (evt : string) (data : Data) : M t unit :=
  v ← slot_of evt;
  for_loop (slot_length v) 0 (emit_body evt data).

(** [this.events[evt] = []] *)
Definition declareEvent (evt : string) : M t unit :=
  modify (λ o, mk (<[evt := []]> (events o))).

(** Call sequences on one object, for statements about histories. *)
Inductive Op :=
| OpDeclare (evt : string)
| OpAdd (evt : string) (callback : Callback)
| OpEmit (evt : string) (data : Data).

Definition run_op (op : Op) : M t unit :=
  match op with
  | OpDeclare evt => declareEvent evt
  | OpAdd evt cb => addEventListener evt cb
  | OpEmit evt d => emitEvent evt d
  end.

(** The object after a history of calls; a call that throws leaves the
    object as the exception found it and the history goes on. *)
Definition exec (ops : list Op) (o : t) : t :=
  foldl (λ o op, final (run_op op o)) o ops.

Definition declares (evt : string) (op : Op) : Prop :=
  op = OpDeclare evt.

End XObject.

(** ** Tracks and source selection *)

(** A track of the page's JSON payload.  [track_ref] is the identity of
    the object ([indexOf] compares objects by identity); [sources] lists
    the own properties of the [sources] object in enumeration order, which
    for MIME-type keys is the order of declaration.  The [settings] of a
    track are read by the view only and are left out. *)
Record Track := mkTrack {
  track_ref : nat;
  title : string;
  icon : string;
  sources : list (string * string)
}.

#[export] Instance Track_eq_dec : EqDecision Track.
Proof. solve_decision. Defined.

(** The answers of [HTMLMediaElement.canPlayType]: the empty string,
    ["maybe"] or ["probably"]. *)
Inductive CanPlay := NoSupport | Maybe | Probably.

(** JavaScript truthiness of an answer: only the empty string is falsy. *)
Definition truthy (c : CanPlay) : bool :=
  match c with
  | NoSupport => false
  | Maybe | Probably => true
  end.

(** [obj[key]] on a plain object given by its property list. *)
Fixpoint prop_get (key : string) (obj : list (string * string)) : option string :=
  match obj with
  | [] => None
  | (k, v) :: obj' => if decide (k = key) then Some v else prop_get key obj'
  end.

(** [key in obj] *)
Definition has_key (key : string) (obj : list (string * string)) : bool :=
  match prop_get key obj with
  | Some _ => true
  | None => false
  end.

Definition preferred : list string := ["audio/mp4"; "audio/ogg"; "audio/mp3"].

Section Selection.

Variable canPlayType : string → CanPlay.

(** The test of both loops: a declared source the host can play. *)
Definition usable (track : Track) (codec : string) : bool :=
  has_key codec (sources track) && truthy (canPlayType codec).

(** The body shared by the two loops of [selectTrackUri], run over the
    codecs the loop enumerates: [Some uri] when the loop returns [uri],
    [None] when it falls through. *)
Fixpoint scan (codecs : list string) (track : Track) : option (option string) :=
  match codecs with
  | [] => None
  | codec :: rest =>
      let supported := canPlayType codec in
      if has_key codec (sources track) && truthy supported
      then Some (prop_get codec (sources track))
      else scan rest track
  end.

(** [PlayerEngine.prototype.selectTrackUri]; [None] is [undefined]. *)
Definition selectTrackUri (track : Track) : option string :=
  match scan preferred track with
  | Some uri => uri
  | None =>
      match scan (sources track).*1 track with
      | Some uri => uri
      | None => prop_get "audio/wav" (sources track)
      end
  end.

End Selection.

(** ** The host audio graph *)

Definition Buffer := nat.

(** The function stored in [onended]: [this.onEnded.bind(this)]. *)
Inductive Handler := BoundOnEnded.

Module AudioContext.

Inductive Target := Destination | GainInput (h : nat).

(** A gain node: [gain.value] (the engine stores 0 and 1 only) and the
    nodes it is connected to. *)
Record GainNode := mkGain {
  value : Z;
  gain_out : list Target
}.

Record SourceNode := mkSource {
  buffer : option Buffer;
  source_out : list Target;
  started : option Z;
  stopped : option Z;
  onended : option Handler
}.

Record t := mk {
  gainNodes : list GainNode;
  sourceNodes : list SourceNode
}.

Definition new : t := mk [] [].

(** A fresh gain node has the default gain 1 and no connection. *)
Definition createGain (g : t) : nat * t :=
  (length (gainNodes g), mk (gainNodes g ++ [mkGain 1 []]) (sourceNodes g)).

Definition createBufferSource (g : t) : nat * t :=
  (length (sourceNodes g),
   mk (gainNodes g) (sourceNodes g ++ [mkSource None [] None None None])).

Definition set_value (h : nat) (v : Z) (g : t) : t :=
  mk (alter (λ n, mkGain v (gain_out n)) h (gainNodes g)) (sourceNodes g).

Definition gain_connect (h : nat) (d : Target) (g : t) : t :=
  mk (alter (λ n, mkGain (value n) (gain_out n ++ [d])) h (gainNodes g))
     (sourceNodes g).

Definition alter_source (f : SourceNode → SourceNode) (h : nat) (g : t) : t :=
  mk (gainNodes g) (alter f h (sourceNodes g)).

(** The host turns an [undefined] buffer into [null]. *)
Definition set_buffer (h : nat) (b : option Buffer) : t → t :=
  alter_source (λ n, mkSource b (source_out n) (started n) (stopped n) (onended n)) h.

Definition source_connect (h : nat) (d : Target) : t → t :=
  alter_source
    (λ n, mkSource (buffer n) (source_out n ++ [d]) (started n) (stopped n) (onended n)) h.

Definition set_onended (h : nat) (f : option Handler) : t → t :=
  alter_source (λ n, mkSource (buffer n) (source_out n) (started n) (stopped n) f) h.

(** [start] may be called once on a source node. *)
Definition start (h : nat) (when : Z) (g : t) : Error + t :=
  match sourceNodes g !! h with
  | Some n =>
      match started n with
      | Some _ => inl InvalidStateError
      | None =>
          inr (alter_source
                 (λ n, mkSource (buffer n) (source_out n) (Some when) (stopped n) (onended n))
                 h g)
      end
  | None => inr g
  end.

(** [stop] needs a started node. *)
Definition stop (h : nat) (when : Z) (g : t) : Error + t :=
  match sourceNodes g !! h with
  | Some n =>
      match started n with
      | None => inl InvalidStateError
      | Some _ =>
          inr (alter_source
                 (λ n, mkSource (buffer n) (source_out n) (started n) (Some when) (onended n))
                 h g)
      end
  | None => inr g
  end.

End AudioContext.

(** ** PlayerEngine: sound playing engine *)

(** An element of [playbackCtx]: handles of the two nodes of a track. *)
Record Entry := mkEntry {
  gainNode : nat;
  sourceNode : nat
}.

(** The engine object.  [playbackCtx] is [undefined] until the first
    [play]. *)
Record Engine := mkEngine {
  events : gmap string (list Callback);
  ctx : AudioContext.t;
  buffers : JSArray.t Buffer;
  tracks : list Track;
  currentTrack : Z;
  playing : bool;
  playbackCtx : option (list (option Entry))
}.

Definition set_events (v : gmap string (list Callback)) (s : Engine) : Engine :=
  mkEngine v (ctx s) (buffers s) (tracks s) (currentTrack s) (playing s) (playbackCtx s).
Definition set_ctx (v : AudioContext.t) (s : Engine) : Engine :=
  mkEngine (events s) v (buffers s) (tracks s) (currentTrack s) (playing s) (playbackCtx s).
Definition set_buffers (v : JSArray.t Buffer) (s : Engine) : Engine :=
  mkEngine (events s) (ctx s) v (tracks s) (currentTrack s) (playing s) (playbackCtx s).
Definition set_currentTrack (v : Z) (s : Engine) : Engine :=
  mkEngine (events s) (ctx s) (buffers s) (tracks s) v (playing s) (playbackCtx s).
Definition set_playing (v : bool) (s : Engine) : Engine :=
  mkEngine (events s) (ctx s) (buffers s) (tracks s) (currentTrack s) v (playbackCtx s).
Definition set_playbackCtx (v : option (list (option Entry))) (s : Engine) : Engine :=
  mkEngine (events s) (ctx s) (buffers s) (tracks s) (currentTrack s) (playing s) v.

(** A method inherited from [XObject], run on the engine. *)
Definition liftX {A} (m : M XObject.t A) : M Engine A := λ s,
  let r := m (XObject.mk (events s)) in
  mkRun (outcome r) (set_events (XObject.events (final r)) s) (calls r).

(** Calls into the audio graph. *)
Definition graph {A} (f : AudioContext.t → A * AudioContext.t) : M Engine A := λ s,
  let '(a, g) := f (ctx s) in mkRun (Returned a) (set_ctx g s) [].

Definition graph_ (f : AudioContext.t → AudioContext.t) : M Engine unit :=
  modify (λ s, set_ctx (f (ctx s)) s).

Definition graph_try (f : AudioContext.t → Error + AudioContext.t) : M Engine unit := λ s,
  match f (ctx s) with
  | inl e => mkRun (Thrown e) s []
  | inr g => mkRun (Returned tt) (set_ctx g s) []
  end.

(** [if (c) { m }] *)
Definition when {St} (c : bool) (m : M St unit) : M St unit :=
  if c then m else ret tt.

(** JavaScript truthiness of a value that is an object or [undefined]. *)
Definition is_object {A} (o : option A) : bool :=
  match o with
  | Some _ => true
  | None => false
  end.

(** [function PlayerEngine(tracks)], on a host that provides an
    [AudioContext]. *)
Definition PlayerEngine (tracks : list Track) : Engine :=
  let this := mkEngine ∅ AudioContext.new JSArray.empty tracks 0 false None in
  final ((liftX (XObject.declareEvent "trackLoaded");;
          liftX (XObject.declareEvent "trackChanged");;
          modify (set_playing false)) this).

(** [PlayerEngine.prototype.trackDecodedCallback] *)
Definition trackDecodedCallback (track : Track) (buffer : Buffer) : M Engine unit :=
  index ← gets (λ this, JSArray.indexOf track (tracks this));
  modify (λ this, set_buffers (JSArray.set (buffers this) index buffer) this);;
  liftX (XObject.emitEvent "trackLoaded" DObject).

Section Loading.

Variable canPlayType : string → CanPlay.

(** [PlayerEngine.prototype.loadSingleTrack]: the value returned stands
    for the request [loadTrackFromUri] hands to the host, which answers
    later through [trackDecodedCallback]. *)
Definition loadSingleTrack (i : nat) : M Engine (Track * option string) :=
  t ← gets (λ this, tracks this !! i) ≫= defined;
  let uri := selectTrackUri canPlayType t in
  mret (t, uri).

(** [PlayerEngine.prototype.loadTracks] *)
Definition loadTracks : M Engine unit :=
  n ← gets (λ this, length (tracks this));
  for_loop n 0 (λ i, loadSingleTrack i;; mret tt).

End Loading.

(** The body of the loop of [play]. *)
Definition play_body (i : nat) : M Engine unit :=
  cur ← gets currentTrack;
  let gainValue := if Z.of_nat i =? cur then 1 else 0 in
  gain ← graph AudioContext.createGain;
  graph_ (AudioContext.set_value gain gainValue);;
  graph_ (AudioContext.gain_connect gain AudioContext.Destination);;
  source ← graph AudioContext.createBufferSource;
  b ← gets (λ this, JSArray.get (buffers this) (Z.of_nat i));
  graph_ (AudioContext.set_buffer source b);;
  graph_ (AudioContext.source_connect source (AudioContext.GainInput gain));;
  graph_try (AudioContext.start source 0);;
  pc ← gets playbackCtx ≫= defined;
  modify (set_playbackCtx (Some (JSArray.set_nat pc i (mkEntry gain source)))).

(** [PlayerEngine.prototype.play] *)
Definition play : M Engine unit :=
  p ← gets playing;
  if (p : bool) then mret tt else
  modify (set_playing true);;
  modify (set_playbackCtx (Some []));;
  n ← gets (λ this, length (tracks this));
  for_loop n 0 play_body;;
  first ← gets (λ this, playbackCtx this ≫= λ pc, JSArray.get pc 0) ≫= defined;
  graph_ (AudioContext.set_onended (sourceNode first) (Some BoundOnEnded)).

(** The body of the loop of [stop]. *)
Definition stop_body (i : nat) : M Engine unit :=
  e ← gets (λ this, playbackCtx this ≫= λ pc, JSArray.get pc (Z.of_nat i)) ≫= defined;
  graph_try (AudioContext.stop (sourceNode e) 0).

(** [PlayerEngine.prototype.stop] *)
Definition stop : M Engine unit :=
  p ← gets playing;
  if negb p then mret tt else
  pc ← gets playbackCtx ≫= defined;
  for_loop (length pc) 0 stop_body;;
  modify (set_playbackCtx (Some [])).

(** [PlayerEngine.prototype.onEnded] *)
Definition onEnded : M Engine unit :=
  modify (set_playing false).

(** [PlayerEngine.prototype.setCurrentTrack] *)
Definition setCurrentTrack (num : Z) : M Engine unit :=
  old ← gets currentTrack;
  modify (set_currentTrack num);;
  p ← gets playing;
  pcx ← gets playbackCtx;
  when (St := Engine) (p && is_object pcx && negb (num =? old))
    (pc ← defined pcx;
     eo ← defined (JSArray.get pc old);
     graph_ (AudioContext.set_value (gainNode eo) 0);;
     en ← defined (JSArray.get pc num);
     graph_ (AudioContext.set_value (gainNode en) 1));;
  liftX (XObject.emitEvent "trackChanged" (DNum num)).

(** ** Histories of the engine *)

(** The calls the engine receives: the three controls, track selection,
    the host's [ended] notification, a decode completion, and a listener
    registration. *)
Inductive Op :=
| Play
| Stop
| Ended
| Select (num : Z)
| Decoded (track : Track) (buffer : Buffer)
| Listen (evt : string) (callback : Callback).

Definition run_op (op : Op) : M Engine unit :=
  match op with
  | Play => play
  | Stop => stop
  | Ended => onEnded
  | Select num => setCurrentTrack num
  | Decoded track buffer => trackDecodedCallback track buffer
  | Listen evt cb => liftX (XObject.addEventListener evt cb)
  end.

(** The engine after a history; an exception ends the call that raised
    it, not the page. *)
Definition exec (ops : list Op) (s : Engine) : Engine :=
  foldl (λ s op, final (run_op op s)) s ops.

(** States the engine reaches from its constructor. *)
Definition reachable (s : Engine) : Prop :=
  ∃ tks ops, s = exec ops (PlayerEngine tks).

(** A history whose selections are track positions of [tks], and whose
    decode completions are for tracks of [tks]. *)
Definition selects_within (tks : list Track) (op : Op) : Prop :=
  match op with
  | Select num => 0 ≤ num < Z.of_nat (length tks)
  | _ => True
  end.

Definition reachable_selecting (s : Engine) : Prop :=
  ∃ tks ops, Forall (selects_within tks) ops ∧ s = exec ops (PlayerEngine tks).

(** ** Reading the session *)

(** The gain of the track at position [i] of the session. *)
Definition session_gain (s : Engine) (i : nat) : option Z :=
  pc ← playbackCtx s;
  e ← JSArray.get pc (Z.of_nat i);
  AudioContext.value <$> AudioContext.gainNodes (ctx s) !! gainNode e.

(** The source node of the track at position [i] of the session. *)
Definition session_source (s : Engine) (i : nat) : option AudioContext.SourceNode :=
  pc ← playbackCtx s;
  e ← JSArray.get pc (Z.of_nat i);
  AudioContext.sourceNodes (ctx s) !! sourceNode e.

(** Number of tracks of the session. *)
Definition session_size (s : Engine) : nat :=
  match playbackCtx s with
  | Some pc => length pc
  | None => O
  end.

(** Sample states. *)
Definition track_a : Track := mkTrack 0 "A" "a.png" [("audio/mp4", "a.mp4")].
Definition track_b : Track := mkTrack 1 "B" "b.png" [("audio/ogg", "b.ogg")].
Definition two_loaded : Engine :=
  exec [Decoded track_a 10%nat; Decoded track_b 11%nat] (PlayerEngine [track_a; track_b]).

(** ** What one run of [play] adds to the graph

    [play] creates its nodes in track order, so the nodes of a session are
    consecutive handles: the gain nodes follow the [g0] nodes the graph
    had, the sources the [s0] sources it had. *)

Definition fresh_gain (cur : Z) (i : nat) : AudioContext.GainNode :=
  AudioContext.mkGain (if Z.of_nat i =? cur then 1 else 0) [AudioContext.Destination].

Definition fresh_source (bufs : list (option Buffer)) (g0 : nat) (i : nat)
  : AudioContext.SourceNode :=
  AudioContext.mkSource (JSArray.get bufs (Z.of_nat i))
    [AudioContext.GainInput (g0 + i)] (Some 0) None None.

Definition fresh_entry (g0 s0 : nat) (i : nat) : option Entry :=
  Some (mkEntry (g0 + i) (s0 + i)).

Definition fresh_session (g0 s0 : nat) (n : nat) : list (option Entry) :=
  fresh_entry g0 s0 <$> seq 0 n.

Definition mark_stopped (n : AudioContext.SourceNode) : AudioContext.SourceNode :=
  AudioContext.mkSource (AudioContext.buffer n) (AudioContext.source_out n)
    (AudioContext.started n) (Some 0) (AudioContext.onended n).

(** The sources after [stop(0)] on the [k] handles from [h] on. *)
Fixpoint stop_range (h k : nat) (l : list AudioContext.SourceNode)
  : list AudioContext.SourceNode :=
  match k with
  | O => l
  | S k' => stop_range (S h) k' (alter mark_stopped h l)
  end.

(** ** Invariants of the engine *)

(** The [n] sources from handle [s0] on exist and were started. *)
Definition sources_started (l : list AudioContext.SourceNode) (s0 n : nat) : Prop :=
  ∀ i, (i < n)%nat →
    ∃ src, l !! (s0 + i)%nat = Some src ∧ is_Some (AudioContext.started src).

(** The shape of the session: it is absent only before the first [play];
    otherwise it is empty or holds one entry per track, and its entries
    are consecutive handles of existing nodes whose sources were
    started. *)
Definition session_shape (s : Engine) : Prop :=
  match playbackCtx s with
  | None => playing s = false
  | Some pc =>
      ∃ g0 s0 n,
        pc = fresh_session g0 s0 n ∧
        (n = O ∨ n = length (tracks s)) ∧
        (g0 + n ≤ length (AudioContext.gainNodes (ctx s)))%nat ∧
        sources_started (AudioContext.sourceNodes (ctx s)) s0 n
  end.

Definition events_declared (s : Engine) : Prop :=
  is_Some (events s !! "trackLoaded") ∧ is_Some (events s !! "trackChanged").

Definition Inv (s : Engine) : Prop :=
  events_declared s ∧ session_shape s.

(** [currentTrack] is a track position (there is none without tracks). *)
Definition current_in_range (s : Engine) : Prop :=
  0 ≤ currentTrack s < Z.of_nat (length (tracks s)).

(** While playing, the track at [currentTrack] has gain 1 and every other
    track of the session has gain 0. *)
Definition gains_follow_current (s : Engine) : Prop :=
  playing s = true →
  ∀ i, (i < session_size s)%nat →
    session_gain s i = Some (if Z.of_nat i =? currentTrack s then 1 else 0).

Definition InvSel (s : Engine) : Prop :=
  Inv s ∧ (tracks s = [] ∨ current_in_range s) ∧ gains_follow_current s.

(** Every buffer of the table is present. *)
Definition all_loaded (s : Engine) : Prop :=
  ∀ i, (i < length (tracks s))%nat → is_Some (JSArray.get (buffers s) (Z.of_nat i)).

(** The state a run of [play] that builds a session ends in. *)
Definition played (s : Engine) : Engine :=
  let g0 := length (AudioContext.gainNodes (ctx s)) in
  let s0 := length (AudioContext.sourceNodes (ctx s)) in
  let n := length (tracks s) in
  mkEngine (events s)
    (AudioContext.set_onended s0 (Some BoundOnEnded)
       (AudioContext.mk
          (AudioContext.gainNodes (ctx s) ++ (fresh_gain (currentTrack s) <$> seq 0 n))
          (AudioContext.sourceNodes (ctx s) ++ (fresh_source (buffers s) g0 <$> seq 0 n))))
    (buffers s) (tracks s) (currentTrack s) true (Some (fresh_session g0 s0 n)).

(** ** Further readings of histories and of the graph *)

(** The callbacks a history of [XObject] calls hands to
    [addEventListener(evt, _)], in call order. *)
Definition added_to (evt : string) (ops : list XObject.Op) : list Callback :=
  omap (λ op, match op with
              | XObject.OpAdd e cb => if decide (e = evt) then Some cb else None
              | _ => None
              end) ops.

(** The session entry of track [i]: [this.playbackCtx[i]]. *)
Definition session_entry (s : Engine) (i : nat) : option Entry :=
  playbackCtx s ≫= λ pc, JSArray.get pc (Z.of_nat i).

(** The nodes of entry [e] of track [i] are wired as [play] leaves them:
    the gain node feeds the destination, the source feeds that gain node,
    was started at time 0 and not stopped, and carries the [ended] handler
    exactly when [i] is 0. *)
Definition entry_wired (g : AudioContext.t) (i : nat) (e : Entry) : Prop :=
  (∃ v, AudioContext.gainNodes g !! gainNode e
        = Some (AudioContext.mkGain v [AudioContext.Destination])) ∧
  (∃ b, AudioContext.sourceNodes g !! sourceNode e
        = Some (AudioContext.mkSource b [AudioContext.GainInput (gainNode e)]
                  (Some 0) None (if decide (i = O) then Some BoundOnEnded else None))).

Definition session_wired (s : Engine) : Prop :=
  match playbackCtx s with
  | None => True
  | Some pc =>
      ∃ g0 s0 n,
        pc = fresh_session g0 s0 n ∧
        ∀ i, (i < n)%nat → entry_wired (ctx s) i (mkEntry (g0 + i) (s0 + i))
  end.

Definition gain_count (s : Engine) : nat := length (AudioContext.gainNodes (ctx s)).
Definition source_count (s : Engine) : nat := length (AudioContext.sourceNodes (ctx s)).

(** Every node of [g] is still in [g'], unchanged. *)
Definition nodes_kept (g g' : AudioContext.t) : Prop :=
  (∀ h, (h < length (AudioContext.gainNodes g))%nat →
     AudioContext.gainNodes g' !! h = AudioContext.gainNodes g !! h) ∧
  (∀ h, (h < length (AudioContext.sourceNodes g))%nat →
     AudioContext.sourceNodes g' !! h = AudioContext.sourceNodes g !! h).

(** While [s'] plays, its session holds nodes created after [g]. *)
Definition session_above (g : AudioContext.t) (s' : Engine) : Prop :=
  playing s' = true →
  ∃ g0 s0 n,
    playbackCtx s' = Some (fresh_session g0 s0 n) ∧
    (length (AudioContext.gainNodes g) ≤ g0)%nat ∧
    (length (AudioContext.sourceNodes g) ≤ s0)%nat ∧
    sources_started (AudioContext.sourceNodes (ctx s')) s0 n.

(** * Properties *)

(** ** Histories *)

Lemma exec_snoc ops op s : exec (ops ++ [op]) s = final (run_op op (exec ops s)).
Proof. unfold exec. by rewrite foldl_app. Qed.

(** ** XObject *)
Module XObjectFacts.
Import XObject.

Lemma xexec_snoc ops op o : exec (ops ++ [op]) o = final (run_op op (exec ops o)).
Proof. unfold exec. by rewrite foldl_app. Qed.

Lemma lookup_own o evt l : events o !! evt = Some l → lookup o evt = SArray l.
Proof. intros H. unfold lookup. by rewrite H. Qed.

Lemma lookup_array o evt l : lookup o evt = SArray l → events o !! evt = Some l.
Proof.
  unfold lookup, inherited_from_array, inherited_from_object.
  destruct (events o !! evt); [congruence|].
  repeat (case_decide || case_bool_decide || case_match); congruence.
Qed.

Lemma slot_of_array o evt l :
  events o !! evt = Some l → slot_of evt o = mkRun (Returned (SArray l)) o [].
Proof.
  intros H. unfold slot_of, mbind, M_bind, bind, gets. cbn [outcome final calls].
  by rewrite (lookup_own _ _ _ H).
Qed.

Lemma slot_of_value o evt len :
  lookup o evt = SValue len → slot_of evt o = mkRun (Returned (SValue len)) o [].
Proof.
  intros H. unfold slot_of, mbind, M_bind, bind, gets. cbn [outcome final calls].
  by rewrite H.
Qed.

Lemma slot_of_undefined o evt :
  lookup o evt = SUndefined → slot_of evt o = mkRun (Thrown TypeError) o [].
Proof.
  intros H. unfold slot_of, mbind, M_bind, bind, gets. cbn [outcome final calls].
  by rewrite H.
Qed.

Lemma bind_returned {St A B} (m : M St A) (k : A → M St B) s a s' :
  m s = mkRun (Returned a) s' [] → (m ≫= k) s = k a s'.
Proof.
  intros H. unfold mbind, M_bind, bind. rewrite H. simpl. by destruct (k a s').
Qed.

Lemma bind_thrown {St A B} (m : M St A) (k : A → M St B) s e s' c :
  m s = mkRun (Thrown e) s' c → (m ≫= k) s = mkRun (Thrown e) s' c.
Proof. intros H. unfold mbind, M_bind, bind. by rewrite H. Qed.

Lemma add_declared evt cb o l :
  events o !! evt = Some l →
  addEventListener evt cb o
  = mkRun (Returned tt) (mk (<[evt := l ++ [cb]]> (events o))) [].
Proof.
  intros H. unfold addEventListener.
  by rewrite (bind_returned _ _ _ _ _ (slot_of_array _ _ _ H)).
Qed.

Lemma add_undeclared evt cb o :
  events o !! evt = None →
  addEventListener evt cb o = mkRun (Thrown TypeError) o [].
Proof.
  intros H. unfold addEventListener.
  destruct (lookup o evt) as [|l|len] eqn:Hl.
  - by rewrite (bind_thrown _ _ _ _ _ _ (slot_of_undefined _ _ Hl)).
  - apply lookup_array in Hl. congruence.
  - by rewrite (bind_returned _ _ _ _ _ (slot_of_value _ _ _ Hl)).
Qed.

Lemma emit_undefined evt d o :
  lookup o evt = SUndefined →
  emitEvent evt d o = mkRun (Thrown TypeError) o [].
Proof.
  intros H. unfold emitEvent.
  by rewrite (bind_thrown _ _ _ _ _ _ (slot_of_undefined _ _ H)).
Qed.

(** On a value that is not an array the loop runs only if the value has
    a positive [length], and then fails at its first element. *)
Lemma emit_inherited evt d o len :
  lookup o evt = SValue len →
  emitEvent evt d o
  = mkRun (match len with Some (S _) => Thrown TypeError | _ => Returned tt end) o [].
Proof.
  intros H. unfold emitEvent.
  rewrite (bind_returned _ _ _ _ _ (slot_of_value _ _ _ H)).
  destruct len as [[|n]|]; [done| |done].
  cbn [slot_length for_loop].
  apply bind_thrown. unfold emit_body.
  rewrite (bind_returned _ _ _ _ _ (slot_of_value _ _ _ H)).
  by apply bind_thrown.
Qed.

(** The loop of [emitEvent] from position [length seen] on. *)
Lemma emit_loop evt d o (todo : list Callback) :
  ∀ seen : list Callback,
    events o !! evt = Some (seen ++ todo) →
    for_loop (length todo) (length seen) (emit_body evt d) o
    = mkRun (Returned tt) o ((λ cb, (cb, d)) <$> todo).
Proof.
  induction todo as [|cb todo IH]; intros seen H; [done|].
  simpl. unfold mbind at 1, M_bind, bind at 1.
  assert (Hb : emit_body evt d (length seen) o = mkRun (Returned tt) o [(cb, d)]).
  { unfold emit_body. rewrite (bind_returned _ _ _ _ _ (slot_of_array _ _ _ H)).
    cbn [slot_item]. rewrite list_lookup_middle by done.
    unfold mbind, M_bind, bind, defined, ret, invoke. reflexivity. }
  rewrite Hb. cbn [outcome final calls].
  specialize (IH (seen ++ [cb])). rewrite length_app, <- app_assoc in IH.
  simpl in IH. rewrite Nat.add_1_r in IH. by rewrite (IH H).
Qed.

Lemma emit_declared evt d o l :
  events o !! evt = Some l →
  emitEvent evt d o = mkRun (Returned tt) o ((λ cb, (cb, d)) <$> l).
Proof.
  intros H. pose proof (emit_loop evt d o l [] H) as HL. simpl in HL.
  unfold emitEvent. rewrite (bind_returned _ _ _ _ _ (slot_of_array _ _ _ H)).
  exact HL.
Qed.

(** However it ends, [emitEvent] leaves the object as it was. *)
Lemma emit_final evt d o : final (emitEvent evt d o) = o.
Proof.
  destruct (lookup o evt) as [|l|len] eqn:Hl.
  - by rewrite (emit_undefined _ _ _ Hl).
  - by rewrite (emit_declared _ _ _ _ (lookup_array _ _ _ Hl)).
  - by rewrite (emit_inherited _ _ _ _ Hl).
Qed.

(** An event with a listener list was declared earlier in the history. *)
Lemma listed_was_declared ops :
  ∀ evt, is_Some (events (exec ops new) !! evt) → Exists (declares evt) ops.
Proof.
  induction ops as [|op ops IH] using rev_ind; intros evt [l H].
  - change (events (exec [] new)) with (∅ : gmap string (list Callback)) in H.
    by rewrite lookup_empty in H.
  - rewrite xexec_snoc in H. apply Exists_app.
    destruct op as [e|e cb|e d]; cbn [run_op] in H.
    + unfold declareEvent, modify in H. cbn [final events] in H.
      destruct (decide (e = evt)) as [->|Hne].
      * right. by constructor.
      * rewrite lookup_insert_ne in H by done. left. apply IH. eauto.
    + destruct (events (exec ops new) !! e) as [l'|] eqn:He.
      * rewrite (add_declared _ _ _ _ He) in H. cbn [final events] in H.
        destruct (decide (e = evt)) as [->|Hne].
        -- left. apply IH. eauto.
        -- rewrite lookup_insert_ne in H by done. left. apply IH. eauto.
      * rewrite (add_undeclared _ _ _ He) in H. left. apply IH. eauto.
    + rewrite emit_final in H. left. apply IH. eauto.
Qed.

Lemma returns_listed_add evt cb o :
  outcome (addEventListener evt cb o) = Returned tt → is_Some (events o !! evt).
Proof.
  destruct (events o !! evt) eqn:H; [eauto|].
  by rewrite (add_undeclared _ _ _ H).
Qed.

(** [emitEvent] returns only on a listener list or on an inherited value
    without a positive [length]. *)
Lemma returns_listed_emit evt d o :
  outcome (emitEvent evt d o) = Returned tt →
  is_Some (events o !! evt) ∨
  (lookup o evt = SValue None ∨ lookup o evt = SValue (Some O)).
Proof.
  destruct (lookup o evt) as [|l|len] eqn:Hl.
  - by rewrite (emit_undefined _ _ _ Hl).
  - intros _. left. rewrite (lookup_array _ _ _ Hl). eauto.
  - rewrite (emit_inherited _ _ _ _ Hl). destruct len as [[|n]|]; [eauto|done|eauto].
Qed.

(** Without a declaration of ["__proto__"] the table keeps the prototype
    it was created with, and an undeclared name that [Object.prototype]
    does not hold is [undefined]. *)
Lemma lookup_plain ops evt :
  evt ≠ "__proto__" → method_length evt object_prototype = None →
  ¬ Exists (declares "__proto__") ops →
  events (exec ops new) !! evt = None →
  lookup (exec ops new) evt = SUndefined.
Proof.
  intros Hp Hm Hno He. unfold lookup. rewrite He, decide_False by done.
  destruct (events (exec ops new) !! "__proto__") as [p|] eqn:Hpr.
  - destruct Hno. apply listed_was_declared. eauto.
  - unfold inherited_from_object. by rewrite Hm.
Qed.

End XObjectFacts.

(** C10 (as amended): [addEventListener(e, cb)] returns only if [e] was
    declared by an earlier [declareEvent(e)] on the object, for every
    name [e].  [emitEvent(e, d)] returns only if [e] was declared
    earlier, for every [e] that the table does not inherit: [e] is not
    ["__proto__"] and not a method name of [Object.prototype], on an
    object on which ["__proto__"] was not declared.  In general
    [emitEvent] returns only on a declared name or on an inherited value
    whose [length] is 0 or not a number; on such a value it calls nothing,
    and on an inherited value of positive [length] it throws a
    [TypeError].  Both calls throw a [TypeError] when the lookup yields
    nothing.  For a declared [e], [addEventListener] appends [cb] to the
    list of [e] and [emitEvent] invokes each listener of that list once,
    in registration order, with [d]. *)
Theorem events_need_declaration :
  (∀ ops evt cb,
     outcome (XObject.addEventListener evt cb (XObject.exec ops XObject.new)) = Returned tt →
     Exists (XObject.declares evt) ops) ∧
  (∀ ops evt d,
     evt ≠ "__proto__" →
     XObject.method_length evt XObject.object_prototype = None →
     ¬ Exists (XObject.declares "__proto__") ops →
     outcome (XObject.emitEvent evt d (XObject.exec ops XObject.new)) = Returned tt →
     Exists (XObject.declares evt) ops) ∧
  (∀ ops evt d,
     outcome (XObject.emitEvent evt d (XObject.exec ops XObject.new)) = Returned tt →
     Exists (XObject.declares evt) ops ∨
     XObject.lookup (XObject.exec ops XObject.new) evt = XObject.SValue None ∨
     XObject.lookup (XObject.exec ops XObject.new) evt = XObject.SValue (Some O)) ∧
  (∀ o evt cb,
     XObject.events o !! evt = None →
     XObject.addEventListener evt cb o = mkRun (Thrown TypeError) o []) ∧
  (∀ o evt d,
     XObject.lookup o evt = XObject.SUndefined →
     XObject.emitEvent evt d o = mkRun (Thrown TypeError) o []) ∧
  (∀ o evt d len,
     XObject.lookup o evt = XObject.SValue len →
     XObject.emitEvent evt d o
     = mkRun (match len with Some (S _) => Thrown TypeError | _ => Returned tt end) o []) ∧
  (∀ o evt l cb,
     XObject.events o !! evt = Some l →
     XObject.addEventListener evt cb o
     = mkRun (Returned tt) (XObject.mk (<[evt := l ++ [cb]]> (XObject.events o))) []) ∧
  (∀ o evt l d,
     XObject.events o !! evt = Some l →
     XObject.emitEvent evt d o = mkRun (Returned tt) o ((λ cb, (cb, d)) <$> l)).
Proof.
  split; [|split; [|split; [|split; [|split; [|split; [|split]]]]]].
  - intros ops evt cb H. apply XObjectFacts.listed_was_declared.
    by apply XObjectFacts.returns_listed_add in H.
  - intros ops evt d Hp Hm Hno H.
    destruct (XObject.events (XObject.exec ops XObject.new) !! evt) as [l|] eqn:He.
    { apply XObjectFacts.listed_was_declared. eauto. }
    by rewrite (XObjectFacts.emit_undefined _ _ _
                  (XObjectFacts.lookup_plain ops evt Hp Hm Hno He)) in H.
  - intros ops evt d H.
    destruct (XObjectFacts.returns_listed_emit _ _ _ H) as [Hl|Hv]; [|by right].
    left. by apply XObjectFacts.listed_was_declared.
  - intros o evt cb. apply XObjectFacts.add_undeclared.
  - intros o evt d. apply XObjectFacts.emit_undefined.
  - intros o evt d len. apply XObjectFacts.emit_inherited.
  - intros. by apply XObjectFacts.add_declared.
  - intros. by apply XObjectFacts.emit_declared.
Qed.

Lemma events_need_declaration_witness :
  Exists (XObject.declares "trackChanged")
    [XObject.OpDeclare "trackChanged"; XObject.OpAdd "trackChanged" 7%nat] ∧
  XObject.emitEvent "loaded" DObject XObject.new = mkRun (Thrown TypeError) XObject.new [] ∧
  XObject.emitEvent "constructor" DObject XObject.new
  = mkRun (Thrown TypeError) XObject.new [] ∧
  calls (XObject.emitEvent "trackChanged" (DNum 1)
           (XObject.exec [XObject.OpDeclare "trackChanged"; XObject.OpAdd "trackChanged" 7%nat;
                          XObject.OpAdd "trackChanged" 8%nat] XObject.new))
  = [(7%nat, DNum 1); (8%nat, DNum 1)].
Proof.
  destruct events_need_declaration
    as (Hadd & _ & _ & _ & Hnone & Hinh & Hpush & Hcall).
  split; [|split; [|split]].
  - apply (Hadd _ "trackChanged" 8%nat). vm_compute. reflexivity.
  - apply (Hnone XObject.new "loaded" DObject). reflexivity.
  - apply (Hinh XObject.new "constructor" DObject (Some 1%nat)). reflexivity.
  - rewrite (Hcall _ "trackChanged" [7%nat; 8%nat] (DNum 1)).
    + reflexivity.
    + vm_compute. reflexivity.
Defined.

(** C10, as stated, fails: on a new object, where nothing was declared,
    [emitEvent("toString", d)] finds the method inherited from
    [Object.prototype], whose [length] is 0, runs its loop zero times and
    returns. *)
Lemma emitEvent_inherited_counterexample :
  XObject.emitEvent "toString" DObject (XObject.exec [] XObject.new)
  = mkRun (Returned tt) XObject.new [] ∧
  ¬ Exists (XObject.declares "toString") [].
Proof.
  split; [reflexivity|]. by intros H%Exists_nil.
Qed.

(** ** Source selection *)
Section SelectionFacts.

Variable canPlayType : string → CanPlay.

Lemma prop_get_elem key obj uri : prop_get key obj = Some uri → (key, uri) ∈ obj.
Proof.
  induction obj as [|[k v] obj IH]; simpl; [done|].
  case_decide as Hd; intros Hg.
  - simplify_eq. left.
  - right. by apply IH.
Qed.

Lemma has_key_keys key obj : has_key key obj = true ↔ key ∈ obj.*1.
Proof.
  unfold has_key. induction obj as [|[k v] obj IH]; simpl.
  - split; [done|]. by intros ?%not_elem_of_nil.
  - case_decide as Hk; subst.
    + split; [intros _; left | done].
    + rewrite IH. split; [by right|]. intros H'. by apply elem_of_cons in H' as [?|?].
Qed.

Lemma scan_miss codecs track :
  (∀ c, c ∈ codecs → usable canPlayType track c = false) →
  scan canPlayType codecs track = None.
Proof.
  induction codecs as [|c codecs IH]; intros H; simpl; [done|].
  fold (usable canPlayType track c). rewrite (H c) by left. apply IH. intros. apply H. by right.
Qed.

Lemma scan_falls_through codecs track :
  scan canPlayType codecs track = None →
  ∀ c, c ∈ codecs → usable canPlayType track c = false.
Proof.
  induction codecs as [|k codecs IH]; simpl; intros Hs c Hc.
  - by apply not_elem_of_nil in Hc.
  - fold (usable canPlayType track k) in Hs.
    destruct (usable canPlayType track k) eqn:Hk; [done|].
    apply elem_of_cons in Hc as [->|Hc]; [done|]. by apply IH.
Qed.

Lemma scan_hit skipped codec rest track :
  (∀ c, c ∈ skipped → usable canPlayType track c = false) →
  usable canPlayType track codec = true →
  scan canPlayType (skipped ++ codec :: rest) track = Some (prop_get codec (sources track)).
Proof.
  induction skipped as [|c skipped IH]; intros Hs Hc; simpl.
  - fold (usable canPlayType track codec). by rewrite Hc.
  - fold (usable canPlayType track c). rewrite (Hs c) by left. apply IH; [|done].
    intros. apply Hs. by right.
Qed.

Lemma scan_returns codecs track r :
  scan canPlayType codecs track = Some r →
  ∃ c, c ∈ codecs ∧ usable canPlayType track c = true ∧ r = prop_get c (sources track).
Proof.
  induction codecs as [|c codecs IH]; simpl; [done|].
  fold (usable canPlayType track c). destruct (usable canPlayType track c) eqn:Hc.
  - intros [= <-]. exists c. split; [left|done].
  - intros H. destruct (IH H) as (c' & ? & ? & ?). exists c'. split; [by right|done].
Qed.

Lemma usable_source track c :
  usable canPlayType track c = true →
  ∃ uri, prop_get c (sources track) = Some uri ∧ truthy (canPlayType c) = true.
Proof.
  unfold usable, has_key. intros [H1 H2]%andb_prop.
  destruct (prop_get c (sources track)); [eauto|done].
Qed.

Lemma selected_is_usable track :
  (∃ c, c ∈ (sources track).*1 ∧ truthy (canPlayType c) = true) →
  ∃ c uri, (c, uri) ∈ sources track ∧ truthy (canPlayType c) = true ∧
           selectTrackUri canPlayType track = Some uri.
Proof.
  intros (c & Hin & Hplay). unfold selectTrackUri.
  destruct (scan canPlayType preferred track) as [r|] eqn:Hp.
  { apply scan_returns in Hp as (c' & _ & Hu & ->).
    destruct (usable_source _ _ Hu) as (uri & Hg & Ht).
    exists c', uri. eauto using prop_get_elem. }
  destruct (scan canPlayType (sources track).*1 track) as [r|] eqn:Hk.
  { apply scan_returns in Hk as (c' & _ & Hu & ->).
    destruct (usable_source _ _ Hu) as (uri & Hg & Ht).
    exists c', uri. eauto using prop_get_elem. }
  exfalso.
  assert (Hu : usable canPlayType track c = true).
  { unfold usable. apply andb_true_intro. split; [by apply has_key_keys|done]. }
  by rewrite (scan_falls_through _ _ Hk c Hin) in Hu.
Qed.

End SelectionFacts.

Lemma prop_get_first (before : list (string * string)) c uri after :
  c ∉ before.*1 → prop_get c (before ++ (c, uri) :: after) = Some uri.
Proof.
  induction before as [|[k v] before IH]; simpl; intros Hc.
  - by rewrite decide_True.
  - apply not_elem_of_cons in Hc as [Hne Hc].
    rewrite decide_False by done. by apply IH.
Qed.

Lemma unplayable_unusable canPlayType track :
  (∀ c, c ∈ (sources track).*1 → truthy (canPlayType c) = false) →
  ∀ c, usable canPlayType track c = false.
Proof.
  intros Hno c. unfold usable.
  destruct (has_key c (sources track)) eqn:Hk; [|done].
  apply has_key_keys in Hk. by rewrite (Hno c Hk).
Qed.

(** C2: when a type of the preference list mp4, ogg, mp3 is declared by
    the track and playable on the host, [selectTrackUri] returns the URI
    declared for the first such type in that order, so with several of
    them the earlier one wins; whenever some declared source is playable
    the URI returned is the one declared for a playable type; when no
    preferred type is usable the first declared playable source is
    returned, and when nothing declared is playable the declared
    [audio/wav] source (possibly [undefined]). *)
Theorem selectTrackUri_prefers_playable (canPlayType : string → CanPlay) (track : Track) :
  let pick := selectTrackUri canPlayType track in
  let ok := usable canPlayType track in
  (ok "audio/mp4" = true →
     pick = prop_get "audio/mp4" (sources track) ∧ is_Some pick) ∧
  (ok "audio/mp4" = false → ok "audio/ogg" = true →
     pick = prop_get "audio/ogg" (sources track) ∧ is_Some pick) ∧
  (ok "audio/mp4" = false → ok "audio/ogg" = false → ok "audio/mp3" = true →
     pick = prop_get "audio/mp3" (sources track) ∧ is_Some pick) ∧
  ((∃ c, c ∈ (sources track).*1 ∧ truthy (canPlayType c) = true) →
     ∃ c uri, (c, uri) ∈ sources track ∧ truthy (canPlayType c) = true ∧ pick = Some uri) ∧
  (ok "audio/mp4" = false → ok "audio/ogg" = false → ok "audio/mp3" = false →
     ∀ before c uri after,
       sources track = before ++ (c, uri) :: after →
       (∀ k, k ∈ before.*1 → truthy (canPlayType k) = false) →
       truthy (canPlayType c) = true →
       pick = Some uri) ∧
  ((∀ c, c ∈ (sources track).*1 → truthy (canPlayType c) = false) →
     pick = prop_get "audio/wav" (sources track)).
Proof.
  intros pick ok. subst pick ok. unfold selectTrackUri.
  split; [|split; [|split; [|split; [|split]]]].
  - intros H.
    change preferred with ([] ++ "audio/mp4" :: ["audio/ogg"; "audio/mp3"]).
    rewrite scan_hit; [|by intros ? ?%not_elem_of_nil|done].
    split; [done|]. destruct (usable_source _ _ _ H) as (u & -> & _). eauto.
  - intros H1 H2.
    change preferred with (["audio/mp4"] ++ "audio/ogg" :: ["audio/mp3"]).
    rewrite scan_hit; [| |done].
    + split; [done|]. destruct (usable_source _ _ _ H2) as (u & -> & _). eauto.
    + intros c Hc. apply list_elem_of_singleton in Hc as ->. done.
  - intros H1 H2 H3.
    change preferred with (["audio/mp4"; "audio/ogg"] ++ "audio/mp3" :: []).
    rewrite scan_hit; [| |done].
    + split; [done|]. destruct (usable_source _ _ _ H3) as (u & -> & _). eauto.
    + intros c Hc. apply elem_of_cons in Hc as [->|Hc]; [done|].
      apply list_elem_of_singleton in Hc as ->. done.
  - apply selected_is_usable.
  - intros H1 H2 H3 before c uri after Hsplit Hbefore Hc.
    rewrite scan_miss.
    2:{ intros k Hk. unfold preferred in Hk.
        repeat (apply elem_of_cons in Hk as [->|Hk]; [done|]).
        by apply not_elem_of_nil in Hk. }
    assert (Hnot : c ∉ before.*1).
    { intros Hin. specialize (Hbefore c Hin). congruence. }
    assert (Hu : usable canPlayType track c = true).
    { unfold usable, has_key. rewrite Hsplit, prop_get_first by done. by rewrite Hc. }
    rewrite Hsplit at 1. rewrite fmap_app, fmap_cons. simpl.
    rewrite (scan_hit canPlayType (before.*1) c (after.*1) track); [| |done].
    + by rewrite Hsplit, prop_get_first.
    + intros k Hk. unfold usable. rewrite (Hbefore k Hk). by rewrite andb_false_r.
  - intros Hno.
    rewrite scan_miss by (intros; by apply unplayable_unusable).
    by rewrite scan_miss by (intros; by apply unplayable_unusable).
Qed.

Lemma selectTrackUri_prefers_playable_witness :
  let host := λ c : string, if decide (c = "audio/mp3") then NoSupport else Probably in
  let track := mkTrack 0 "A" "a.png"
                 [("audio/mp3", "a.mp3"); ("audio/ogg", "a.ogg"); ("audio/mp4", "a.mp4")] in
  selectTrackUri host track = Some "a.mp4" ∧
  selectTrackUri host track_b = Some "b.ogg" ∧
  selectTrackUri (λ _, Probably) (mkTrack 0 "A" "a.png" [("audio/mp3", "a.mp3")]) = Some "a.mp3" ∧
  (∃ c uri, (c, uri) ∈ sources track ∧ truthy (host c) = true ∧
            selectTrackUri host track = Some uri) ∧
  selectTrackUri host (mkTrack 0 "A" "a.png" [("audio/mp3", "a.mp3"); ("audio/flac", "a.flac")])
  = Some "a.flac" ∧
  selectTrackUri (λ _, NoSupport) track = None.
Proof.
  intros host track.
  split; [|split; [|split; [|split; [|split]]]].
  - apply (selectTrackUri_prefers_playable host track). reflexivity.
  - apply (selectTrackUri_prefers_playable host track_b); reflexivity.
  - apply (selectTrackUri_prefers_playable (λ _, Probably)
             (mkTrack 0 "A" "a.png" [("audio/mp3", "a.mp3")])); reflexivity.
  - apply (selectTrackUri_prefers_playable host track).
    exists "audio/ogg". split; [|reflexivity]. right. left.
  - apply (selectTrackUri_prefers_playable host
             (mkTrack 0 "A" "a.png" [("audio/mp3", "a.mp3"); ("audio/flac", "a.flac")]))
      with (before := [("audio/mp3", "a.mp3")]) (c := "audio/flac") (after := []);
      try reflexivity.
    intros k Hk. apply list_elem_of_singleton in Hk as ->. reflexivity.
  - apply (selectTrackUri_prefers_playable (λ _, NoSupport) track). reflexivity.
Defined.

(** ** Running engine methods *)

Lemma bind_pure {St A B} (m : M St A) (k : A → M St B) s a s' :
  m s = mkRun (Returned a) s' [] → (m ≫= k) s = k a s'.
Proof.
  intros H. unfold mbind, M_bind, bind. rewrite H. simpl. by destruct (k a s').
Qed.

Lemma bind_throw {St A B} (m : M St A) (k : A → M St B) s e s' c :
  m s = mkRun (Thrown e) s' c → (m ≫= k) s = mkRun (Thrown e) s' c.
Proof. intros H. unfold mbind, M_bind, bind. by rewrite H. Qed.

Ltac run_pure := erewrite bind_pure by reflexivity.

Ltac norm :=
  unfold set_events, set_ctx, set_buffers, set_currentTrack, set_playing, set_playbackCtx,
    AudioContext.createGain, AudioContext.createBufferSource, AudioContext.set_value,
    AudioContext.gain_connect, AudioContext.set_buffer,
    AudioContext.source_connect, AudioContext.set_onended, AudioContext.alter_source;
  cbn [events ctx buffers tracks currentTrack playing playbackCtx
       AudioContext.gainNodes AudioContext.sourceNodes
       AudioContext.value AudioContext.gain_out AudioContext.buffer AudioContext.source_out
       AudioContext.started AudioContext.stopped AudioContext.onended
       gainNode sourceNode fst snd].

Ltac norm_in H :=
  unfold set_events, set_ctx, set_buffers, set_currentTrack, set_playing, set_playbackCtx,
    AudioContext.createGain, AudioContext.createBufferSource, AudioContext.set_value,
    AudioContext.gain_connect, AudioContext.set_buffer,
    AudioContext.source_connect, AudioContext.set_onended, AudioContext.alter_source in H;
  cbn [events ctx buffers tracks currentTrack playing playbackCtx
       AudioContext.gainNodes AudioContext.sourceNodes
       AudioContext.value AudioContext.gain_out AudioContext.buffer AudioContext.source_out
       AudioContext.started AudioContext.stopped AudioContext.onended
       gainNode sourceNode fst snd] in H.

Lemma alter_snoc {A} (f : A → A) (l : list A) x :
  alter f (length l) (l ++ [x]) = l ++ [f x].
Proof. rewrite <- (Nat.add_0_r (length l)). by rewrite alter_app_r. Qed.

Lemma set_nat_push {A} (a : list (option A)) v :
  JSArray.set_nat a (length a) v = a ++ [Some v].
Proof.
  unfold JSArray.set_nat. rewrite (proj2 (Nat.ltb_ge _ _)) by done.
  by rewrite Nat.sub_diag.
Qed.

(** One iteration of the loop of [play] appends one gain node, one
    started source and one session entry. *)
Lemma play_body_run i s pc g0 :
  playbackCtx s = Some pc → length pc = i →
  length (AudioContext.gainNodes (ctx s)) = (g0 + i)%nat →
  play_body i s
  = mkRun (Returned tt)
      (mkEngine (events s)
         (AudioContext.mk
            (AudioContext.gainNodes (ctx s) ++ [fresh_gain (currentTrack s) i])
            (AudioContext.sourceNodes (ctx s) ++ [fresh_source (buffers s) g0 i]))
         (buffers s) (tracks s) (currentTrack s) (playing s)
         (Some (pc ++ [Some (mkEntry (g0 + i)
                                     (length (AudioContext.sourceNodes (ctx s))))])))
      [].
Proof.
  intros Hpc Hi Hg. destruct s as [ev [gs ss] bufs tks cur pl pcx].
  cbn [playbackCtx] in Hpc. subst pcx. cbn [ctx AudioContext.gainNodes] in Hg.
  unfold play_body.
  do 8 (run_pure; norm).
  rewrite !alter_snoc. norm.
  erewrite bind_pure.
  2:{ unfold graph_try, AudioContext.start. norm.
      rewrite list_lookup_middle by done. norm. rewrite alter_snoc. norm. reflexivity. }
  run_pure. norm. unfold modify. rewrite <- Hi, set_nat_push.
  unfold fresh_gain, fresh_source. rewrite Hg, Hi. reflexivity.
Qed.

(** The loop of [play] from iteration [i] on. *)
Lemma play_loop_run n :
  ∀ i s pc g0 s0,
    playbackCtx s = Some pc → length pc = i →
    length (AudioContext.gainNodes (ctx s)) = (g0 + i)%nat →
    length (AudioContext.sourceNodes (ctx s)) = (s0 + i)%nat →
    for_loop n i play_body s
    = mkRun (Returned tt)
        (mkEngine (events s)
           (AudioContext.mk
              (AudioContext.gainNodes (ctx s) ++ (fresh_gain (currentTrack s) <$> seq i n))
              (AudioContext.sourceNodes (ctx s) ++ (fresh_source (buffers s) g0 <$> seq i n)))
           (buffers s) (tracks s) (currentTrack s) (playing s)
           (Some (pc ++ (fresh_entry g0 s0 <$> seq i n))))
        [].
Proof.
  induction n as [|n IH]; intros i s pc g0 s0 Hpc Hi Hg Hs.
  - simpl. rewrite !app_nil_r. destruct s as [ev [gs ss] bufs tks cur pl pcx].
    cbn [playbackCtx] in Hpc. by subst pcx.
  - cbn [for_loop]. erewrite bind_pure by (by eapply play_body_run).
    rewrite (IH (S i) _
               (pc ++ [Some (mkEntry (g0 + i) (length (AudioContext.sourceNodes (ctx s))))])
               g0 s0); norm.
    + rewrite <- !app_assoc. rewrite Hs. reflexivity.
    + reflexivity.
    + rewrite length_app. simpl. lia.
    + rewrite length_app, Hg. simpl. lia.
    + rewrite length_app, Hs. simpl. lia.
Qed.

Lemma gets_defined {St A} (f : St → option A) s a :
  f s = Some a → (gets f ≫= defined) s = mkRun (Returned a) s [].
Proof. intros H. unfold mbind, M_bind, bind, gets. simpl. by rewrite H. Qed.

Lemma gets_undefined {St A} (f : St → option A) s :
  f s = None → (gets f ≫= defined) s = mkRun (Thrown TypeError) s [].
Proof. intros H. unfold mbind, M_bind, bind, gets. simpl. by rewrite H. Qed.

Lemma play_playing s : playing s = true → play s = mkRun (Returned tt) s [].
Proof. intros H. unfold play. run_pure. by rewrite H. Qed.

Lemma play_builds s :
  playing s = false → tracks s ≠ [] →
  play s = mkRun (Returned tt) (played s) [].
Proof.
  intros Hp Ht. unfold play. run_pure. rewrite Hp.
  do 3 (run_pure; norm).
  erewrite bind_pure.
  2:{ apply (play_loop_run _ 0 _ [] (length (AudioContext.gainNodes (ctx s)))
               (length (AudioContext.sourceNodes (ctx s)))); norm; try done; lia. }
  norm. unfold played, fresh_session.
  destruct (tracks s) as [|t tks] eqn:Htk; [done|].
  cbn [length seq fmap list_fmap app].
  erewrite bind_pure; [|by apply gets_defined].
  unfold graph_, modify. norm. by rewrite Nat.add_0_r.
Qed.

Lemma play_no_tracks s :
  playing s = false → tracks s = [] →
  play s = mkRun (Thrown TypeError) (set_playbackCtx (Some []) (set_playing true s)) [].
Proof.
  intros Hp Ht. unfold play. run_pure. rewrite Hp.
  do 3 (run_pure; norm).
  erewrite bind_pure.
  2:{ apply (play_loop_run _ 0 _ [] (length (AudioContext.gainNodes (ctx s)))
               (length (AudioContext.sourceNodes (ctx s)))); norm; try done; lia. }
  norm. rewrite Ht. cbn [length seq fmap list_fmap]. rewrite !app_nil_r.
  erewrite bind_throw; [|by apply gets_undefined].
  by destruct s as [ev [gs ss] bufs tks cur pl pcx].
Qed.

(** ** Reading a session of fresh handles *)

Lemma get_fresh_in g0 s0 n (z : Z) :
  0 ≤ z < Z.of_nat n →
  JSArray.get (fresh_session g0 s0 n) z
  = Some (mkEntry (g0 + Z.to_nat z) (s0 + Z.to_nat z)).
Proof.
  intros Hz. unfold JSArray.get, fresh_session.
  rewrite (proj2 (Z.ltb_ge _ _)) by lia.
  rewrite list_lookup_fmap, lookup_seq_lt by lia. reflexivity.
Qed.

Lemma get_fresh_out g0 s0 n (z : Z) :
  ¬ (0 ≤ z < Z.of_nat n) → JSArray.get (fresh_session g0 s0 n) z = None.
Proof.
  intros Hz. unfold JSArray.get, fresh_session.
  destruct (Z.ltb_spec z 0); [done|].
  rewrite list_lookup_fmap, lookup_seq_ge by lia. reflexivity.
Qed.

Lemma get_fresh_nat g0 s0 n (i : nat) :
  (i < n)%nat →
  JSArray.get (fresh_session g0 s0 n) (Z.of_nat i) = Some (mkEntry (g0 + i) (s0 + i)).
Proof. intros Hi. rewrite get_fresh_in by lia. by rewrite Nat2Z.id. Qed.

Lemma length_fresh_session g0 s0 n : length (fresh_session g0 s0 n) = n.
Proof. unfold fresh_session. by rewrite length_fmap, length_seq. Qed.

(** ** [stop] *)

Lemma sources_started_alter l s0 n h :
  sources_started l s0 n → sources_started (alter mark_stopped h l) s0 n.
Proof.
  intros H i Hi. destruct (H i Hi) as (src & Hsrc & Hst).
  destruct (decide (h = (s0 + i)%nat)) as [->|Hne].
  - rewrite list_lookup_alter_eq, Hsrc. eexists. split; [reflexivity|done].
  - rewrite list_lookup_alter_ne by done. eauto.
Qed.

Lemma stop_body_run i s g0 s0 n :
  playbackCtx s = Some (fresh_session g0 s0 n) → (i < n)%nat →
  sources_started (AudioContext.sourceNodes (ctx s)) s0 n →
  stop_body i s
  = mkRun (Returned tt)
      (set_ctx (AudioContext.mk (AudioContext.gainNodes (ctx s))
                  (alter mark_stopped (s0 + i)%nat (AudioContext.sourceNodes (ctx s)))) s)
      [].
Proof.
  intros Hpc Hi Hst. unfold stop_body.
  erewrite bind_pure.
  2:{ apply gets_defined. rewrite Hpc. simpl. by apply get_fresh_nat. }
  unfold graph_try, AudioContext.stop. norm.
  destruct (Hst i Hi) as (src & -> & [w ->]). reflexivity.
Qed.

Lemma stop_loop_run k :
  ∀ i s g0 s0 n,
    playbackCtx s = Some (fresh_session g0 s0 n) → (i + k ≤ n)%nat →
    sources_started (AudioContext.sourceNodes (ctx s)) s0 n →
    for_loop k i stop_body s
    = mkRun (Returned tt)
        (set_ctx (AudioContext.mk (AudioContext.gainNodes (ctx s))
                    (stop_range (s0 + i) k (AudioContext.sourceNodes (ctx s)))) s)
        [].
Proof.
  induction k as [|k IH]; intros i s g0 s0 n Hpc Hik Hst.
  - simpl. by destruct s as [ev [gs ss] bufs tks cur pl pcx].
  - cbn [for_loop]. erewrite bind_pure by (eapply stop_body_run; [done|lia|done]).
    rewrite (IH (S i) _ g0 s0 n); norm; [|done|lia|by apply sources_started_alter].
    cbn [stop_range]. by rewrite Nat.add_succ_r.
Qed.

Lemma stop_idle s : playing s = false → stop s = mkRun (Returned tt) s [].
Proof. intros H. unfold stop. run_pure. by rewrite H. Qed.

Lemma stop_session s g0 s0 n :
  playing s = true → playbackCtx s = Some (fresh_session g0 s0 n) →
  sources_started (AudioContext.sourceNodes (ctx s)) s0 n →
  stop s
  = mkRun (Returned tt)
      (mkEngine (events s)
         (AudioContext.mk (AudioContext.gainNodes (ctx s))
            (stop_range s0 n (AudioContext.sourceNodes (ctx s))))
         (buffers s) (tracks s) (currentTrack s) true (Some []))
      [].
Proof.
  intros Hp Hpc Hst. unfold stop. run_pure. rewrite Hp. cbn [negb].
  erewrite bind_pure; [|by apply gets_defined].
  rewrite length_fresh_session.
  erewrite bind_pure by (by eapply (stop_loop_run n 0 s g0 s0 n); [|lia|]).
  unfold modify. norm. by rewrite Nat.add_0_r, Hp.
Qed.

Lemma stop_range_lookup k :
  ∀ h l j,
    stop_range h k l !! j
    = if bool_decide (h ≤ j < h + k)%nat then mark_stopped <$> l !! j else l !! j.
Proof.
  induction k as [|k IH]; intros h l j; simpl.
  - rewrite bool_decide_eq_false_2 by lia. done.
  - rewrite IH, list_lookup_alter.
    repeat case_bool_decide; repeat case_decide; try lia; try done.
    subst. by destruct (l !! j).
Qed.

(** ** Methods inherited from XObject, on the engine *)

Lemma set_events_same s : set_events (events s) s = s.
Proof. by destruct s. Qed.

Lemma liftX_emit_declared s evt d l :
  events s !! evt = Some l →
  liftX (XObject.emitEvent evt d) s = mkRun (Returned tt) s ((λ cb, (cb, d)) <$> l).
Proof.
  intros H. unfold liftX.
  rewrite (XObjectFacts.emit_declared evt d (XObject.mk (events s)) l H).
  cbn [outcome final calls XObject.events]. by rewrite set_events_same.
Qed.

Lemma liftX_add_declared s evt cb l :
  events s !! evt = Some l →
  liftX (XObject.addEventListener evt cb) s
  = mkRun (Returned tt) (set_events (<[evt := l ++ [cb]]> (events s)) s) [].
Proof.
  intros H. unfold liftX.
  by rewrite (XObjectFacts.add_declared evt cb (XObject.mk (events s)) l H).
Qed.

Lemma liftX_add_undeclared s evt cb :
  events s !! evt = None →
  liftX (XObject.addEventListener evt cb) s = mkRun (Thrown TypeError) s [].
Proof.
  intros H. unfold liftX.
  rewrite (XObjectFacts.add_undeclared evt cb (XObject.mk (events s)) H).
  cbn [outcome final calls XObject.events]. by rewrite set_events_same.
Qed.

(** ** [setCurrentTrack] *)

Lemma liftX_emit_final s evt d : final (liftX (XObject.emitEvent evt d) s) = s.
Proof.
  unfold liftX. cbn [final]. rewrite XObjectFacts.emit_final.
  cbn [XObject.events]. apply set_events_same.
Qed.

(** When the test that guards the gain switch fails, the call assigns and
    emits. *)
Lemma setCurrentTrack_quiet num s :
  playing s && is_object (playbackCtx s) && negb (num =? currentTrack s) = false →
  setCurrentTrack num s
  = liftX (XObject.emitEvent "trackChanged" (DNum num)) (set_currentTrack num s).
Proof.
  intros Hq. unfold setCurrentTrack.
  do 4 (run_pure; norm). rewrite Hq. unfold when.
  by run_pure.
Qed.

Lemma setCurrentTrack_switch num s pc eo en :
  playing s = true → playbackCtx s = Some pc → num ≠ currentTrack s →
  JSArray.get pc (currentTrack s) = Some eo →
  JSArray.get pc num = Some en →
  setCurrentTrack num s
  = liftX (XObject.emitEvent "trackChanged" (DNum num))
      (set_ctx (AudioContext.set_value (gainNode en) 1
                  (AudioContext.set_value (gainNode eo) 0 (ctx s)))
         (set_currentTrack num s)).
Proof.
  intros Hp Hpc Hne Ho Hn. unfold setCurrentTrack.
  do 4 (run_pure; norm). rewrite Hp, Hpc. cbn [is_object andb].
  rewrite (proj2 (Z.eqb_neq _ _)) by done. cbn [negb when].
  erewrite bind_pure.
  2:{ run_pure. rewrite Ho. run_pure. unfold graph_. run_pure. norm.
      rewrite Hn. run_pure. unfold modify. norm. reflexivity. }
  reflexivity.
Qed.

Lemma setCurrentTrack_no_old num s pc :
  playing s = true → playbackCtx s = Some pc → num ≠ currentTrack s →
  JSArray.get pc (currentTrack s) = None →
  setCurrentTrack num s = mkRun (Thrown TypeError) (set_currentTrack num s) [].
Proof.
  intros Hp Hpc Hne Ho. unfold setCurrentTrack.
  do 4 (run_pure; norm). rewrite Hp, Hpc. cbn [is_object andb].
  rewrite (proj2 (Z.eqb_neq _ _)) by done. cbn [negb when].
  erewrite bind_throw; [reflexivity|].
  run_pure. rewrite Ho. erewrite bind_throw; reflexivity.
Qed.

Lemma setCurrentTrack_no_new num s pc eo :
  playing s = true → playbackCtx s = Some pc → num ≠ currentTrack s →
  JSArray.get pc (currentTrack s) = Some eo →
  JSArray.get pc num = None →
  setCurrentTrack num s
  = mkRun (Thrown TypeError)
      (set_ctx (AudioContext.set_value (gainNode eo) 0 (ctx s)) (set_currentTrack num s)) [].
Proof.
  intros Hp Hpc Hne Ho Hn. unfold setCurrentTrack.
  do 4 (run_pure; norm). rewrite Hp, Hpc. cbn [is_object andb].
  rewrite (proj2 (Z.eqb_neq _ _)) by done. cbn [negb when].
  erewrite bind_throw; [reflexivity|].
  run_pure. rewrite Ho. run_pure. unfold graph_. run_pure. norm.
  rewrite Hn. erewrite bind_throw; reflexivity.
Qed.

(** The four ways a call ends. *)
Lemma setCurrentTrack_cases num s :
  setCurrentTrack num s
  = liftX (XObject.emitEvent "trackChanged" (DNum num)) (set_currentTrack num s)
  ∨ (∃ eo en,
       setCurrentTrack num s
       = liftX (XObject.emitEvent "trackChanged" (DNum num))
           (set_ctx (AudioContext.set_value (gainNode en) 1
                       (AudioContext.set_value (gainNode eo) 0 (ctx s)))
              (set_currentTrack num s)))
  ∨ setCurrentTrack num s = mkRun (Thrown TypeError) (set_currentTrack num s) []
  ∨ (∃ eo,
       setCurrentTrack num s
       = mkRun (Thrown TypeError)
           (set_ctx (AudioContext.set_value (gainNode eo) 0 (ctx s))
              (set_currentTrack num s)) []).
Proof.
  destruct (playing s && is_object (playbackCtx s) && negb (num =? currentTrack s)) eqn:Hq.
  2:{ left. by apply setCurrentTrack_quiet. }
  apply andb_prop in Hq as [[Hp Hpc]%andb_prop Hne].
  destruct (playbackCtx s) as [pc|] eqn:Hpcx; [|done].
  apply negb_true_iff, Z.eqb_neq in Hne.
  destruct (JSArray.get pc (currentTrack s)) as [eo|] eqn:Ho.
  2:{ right. right. left. by eapply setCurrentTrack_no_old. }
  destruct (JSArray.get pc num) as [en|] eqn:Hn.
  - right. left. exists eo, en. by eapply setCurrentTrack_switch.
  - right. right. right. exists eo. by eapply setCurrentTrack_no_new.
Qed.

(** [currentTrack] is assigned first, so it holds [num] however the call
    ends. *)
Lemma setCurrentTrack_assigns num s :
  currentTrack (final (setCurrentTrack num s)) = num.
Proof.
  destruct (setCurrentTrack_cases num s) as [H|[(eo & en & H)|[H|(eo & H)]]];
    rewrite H; by rewrite ?liftX_emit_final.
Qed.

(** ** [trackDecodedCallback] and the constructor *)

Lemma trackDecodedCallback_final track buffer s :
  final (trackDecodedCallback track buffer s)
  = set_buffers (JSArray.set (buffers s) (JSArray.indexOf track (tracks s)) buffer) s.
Proof.
  unfold trackDecodedCallback. do 2 (run_pure; norm).
  by rewrite liftX_emit_final.
Qed.

Lemma PlayerEngine_fields tks :
  PlayerEngine tks
  = mkEngine (<["trackChanged" := []]> (<["trackLoaded" := []]> ∅))
      AudioContext.new JSArray.empty tks 0 false None.
Proof. reflexivity. Qed.

(** ** The invariant holds in every reachable state *)

Lemma session_shape_frame s s' :
  playbackCtx s' = playbackCtx s → playing s' = playing s → tracks s' = tracks s →
  length (AudioContext.gainNodes (ctx s')) = length (AudioContext.gainNodes (ctx s)) →
  AudioContext.sourceNodes (ctx s') = AudioContext.sourceNodes (ctx s) →
  session_shape s → session_shape s'.
Proof.
  unfold session_shape. intros -> -> -> -> ->. done.
Qed.

Lemma session_shape_empty s :
  playbackCtx s = Some [] → session_shape s.
Proof.
  unfold session_shape. intros ->. exists O, O, O.
  repeat split; [by left|lia|]. intros i Hi. lia.
Qed.

Lemma sources_started_played (ss : list AudioContext.SourceNode) bufs g0 n :
  sources_started
    (alter (λ x, AudioContext.mkSource (AudioContext.buffer x) (AudioContext.source_out x)
                   (AudioContext.started x) (AudioContext.stopped x) (Some BoundOnEnded))
       (length ss) (ss ++ (fresh_source bufs g0 <$> seq 0 n)))
    (length ss) n.
Proof.
  intros i Hi.
  assert (Hl : (ss ++ (fresh_source bufs g0 <$> seq 0 n)) !! (length ss + i)%nat
               = Some (fresh_source bufs g0 i)).
  { rewrite lookup_app_r by lia. replace (length ss + i - length ss)%nat with i by lia.
    by rewrite list_lookup_fmap, lookup_seq_lt by lia. }
  destruct (decide (length ss = (length ss + i)%nat)) as [He|Hne].
  - rewrite <- He in *. rewrite list_lookup_alter_eq, Hl.
    eexists. split; [reflexivity|]. simpl. eauto.
  - rewrite list_lookup_alter_ne, Hl by done.
    eexists. split; [reflexivity|]. simpl. eauto.
Qed.

Lemma session_shape_played s : session_shape (played s).
Proof.
  unfold session_shape, played. norm.
  exists (length (AudioContext.gainNodes (ctx s))),
         (length (AudioContext.sourceNodes (ctx s))), (length (tracks s)).
  split; [done|]. split; [by right|]. split.
  - rewrite length_app, length_fmap, length_seq. lia.
  - apply sources_started_played.
Qed.

Lemma Inv_init tks : Inv (PlayerEngine tks).
Proof.
  rewrite PlayerEngine_fields. split.
  - split; cbn [events].
    + rewrite lookup_insert_ne by done. rewrite lookup_insert_eq. eauto.
    + rewrite lookup_insert_eq. eauto.
  - reflexivity.
Qed.

Lemma Inv_step op s : Inv s → Inv (final (run_op op s)).
Proof.
  intros [[Hl Hc] Hs]. destruct op as [| | |num|track buffer|evt cb]; cbn [run_op].
  - (* play *)
    destruct (playing s) eqn:Hp.
    { rewrite play_playing by done. by split. }
    destruct (tracks s) as [|t tks] eqn:Ht.
    + rewrite play_no_tracks by done. split; [done|]. by apply session_shape_empty.
    + rewrite play_builds by (done || by rewrite Ht). split; [done|].
      apply session_shape_played.
  - (* stop *)
    destruct (playing s) eqn:Hp.
    2:{ rewrite stop_idle by done. by split. }
    unfold session_shape in Hs. destruct (playbackCtx s) as [pc|] eqn:Hpc; [|congruence].
    destruct Hs as (g0 & s0 & n & -> & Hn & Hg & Hst).
    rewrite (stop_session s g0 s0 n) by done. split; [done|].
    by apply session_shape_empty.
  - (* onEnded *)
    split; [done|]. unfold onEnded, modify. cbn [final].
    unfold session_shape in *. norm. by destruct (playbackCtx s).
  - (* setCurrentTrack *)
    destruct (setCurrentTrack_cases num s) as [H|[(eo & en & H)|[H|(eo & H)]]];
      rewrite H; rewrite ?liftX_emit_final; cbn [final]; (split; [done|]);
      (eapply session_shape_frame; [..|exact Hs]); norm;
      rewrite ?length_alter; done.
  - (* trackDecodedCallback *)
    rewrite trackDecodedCallback_final. split; [done|].
    by eapply session_shape_frame; [..|exact Hs].
  - (* addEventListener *)
    destruct (events s !! evt) as [l|] eqn:He.
    2:{ rewrite liftX_add_undeclared by done. by split. }
    rewrite (liftX_add_declared _ _ _ _ He). cbn [final]. split.
    + split; unfold events_declared; norm; rewrite lookup_insert; case_decide; eauto.
    + by eapply session_shape_frame; [..|exact Hs].
Qed.

Lemma Inv_exec ops : ∀ s, Inv s → Inv (exec ops s).
Proof.
  induction ops as [|op ops IH] using rev_ind; intros s H; [done|].
  rewrite exec_snoc. by apply Inv_step, IH.
Qed.

Lemma reachable_Inv s : reachable s → Inv s.
Proof. intros (tks & ops & ->). apply Inv_exec, Inv_init. Qed.

(** ** The gains follow [currentTrack] *)

(** [stop] touches the graph and the session only, however it ends. *)
Lemma stop_body_frame i s : ∃ g, final (stop_body i s) = set_ctx g s.
Proof.
  unfold stop_body.
  destruct (playbackCtx s ≫= λ pc0, JSArray.get pc0 (Z.of_nat i)) as [e|] eqn:He.
  - erewrite bind_pure; [|by apply gets_defined].
    unfold graph_try. destruct (AudioContext.stop (sourceNode e) 0 (ctx s)) as [err|g].
    + exists (ctx s). by destruct s.
    + by exists g.
  - erewrite bind_throw; [|by apply gets_undefined].
    exists (ctx s). by destruct s.
Qed.

Lemma stop_loop_frame k : ∀ i s, ∃ g, final (for_loop k i stop_body s) = set_ctx g s.
Proof.
  induction k as [|k IH]; intros i s.
  - exists (ctx s). by destruct s.
  - cbn [for_loop]. unfold mbind at 1, M_bind, bind.
    destruct (stop_body_frame i s) as [g Hg].
    destruct (outcome (stop_body i s)); cbn [final]; [|by exists g].
    destruct (IH (S i) (final (stop_body i s))) as [g' Hg'].
    exists g'. by rewrite Hg', Hg.
Qed.

Lemma stop_frame s : ∃ g pcx, final (stop s) = set_playbackCtx pcx (set_ctx g s).
Proof.
  unfold stop. run_pure. destruct (playing s); cbn [negb].
  2:{ exists (ctx s), (playbackCtx s). by destruct s. }
  destruct (playbackCtx s) as [pc|] eqn:Hpc.
  2:{ erewrite bind_throw; [|by apply gets_undefined].
      exists (ctx s), (playbackCtx s). by destruct s. }
  erewrite bind_pure; [|by apply gets_defined].
  destruct (stop_loop_frame (length pc) O s) as [g Hg].
  unfold mbind, M_bind, bind.
  destruct (outcome (for_loop (length pc) 0 stop_body s)); cbn [final].
  - exists g, (Some []). unfold modify. cbn [final]. by rewrite Hg.
  - exists g, (playbackCtx s). rewrite Hg. by destruct s.
Qed.

Lemma tracks_step op s : tracks (final (run_op op s)) = tracks s.
Proof.
  destruct op as [| | |num|track buffer|evt cb]; cbn [run_op].
  - destruct (playing s) eqn:Hp; [by rewrite play_playing|].
    destruct (tracks s) as [|t tks] eqn:Ht.
    + by rewrite play_no_tracks.
    + rewrite play_builds by (done || by rewrite Ht). done.
  - destruct (stop_frame s) as (g & pcx & ->). done.
  - done.
  - destruct (setCurrentTrack_cases num s) as [H|[(eo & en & H)|[H|(eo & H)]]];
      rewrite H; by rewrite ?liftX_emit_final.
  - by rewrite trackDecodedCallback_final.
  - destruct (events s !! evt) as [l|] eqn:He.
    + by rewrite (liftX_add_declared _ _ _ _ He).
    + by rewrite liftX_add_undeclared.
Qed.

Lemma tracks_exec ops : ∀ s, tracks (exec ops s) = tracks s.
Proof.
  induction ops as [|op ops IH] using rev_ind; intros s; [done|].
  by rewrite exec_snoc, tracks_step.
Qed.

Lemma session_gain_fresh s g0 s0 n i :
  playbackCtx s = Some (fresh_session g0 s0 n) → (i < n)%nat →
  session_gain s i
  = AudioContext.value <$> AudioContext.gainNodes (ctx s) !! (g0 + i)%nat.
Proof.
  intros Hpc Hi. unfold session_gain. rewrite Hpc. cbn [mbind option_bind].
  by rewrite get_fresh_nat.
Qed.

Lemma gains_frame s s' :
  playing s' = playing s → playbackCtx s' = playbackCtx s →
  AudioContext.gainNodes (ctx s') = AudioContext.gainNodes (ctx s) →
  currentTrack s' = currentTrack s →
  gains_follow_current s → gains_follow_current s'.
Proof.
  unfold gains_follow_current, session_size, session_gain.
  intros -> -> -> ->. done.
Qed.

Lemma gains_idle s : playing s = false → gains_follow_current s.
Proof. unfold gains_follow_current. congruence. Qed.

Lemma gains_no_session s : playbackCtx s = Some [] → gains_follow_current s.
Proof. unfold gains_follow_current, session_size. intros -> _ i Hi. simpl in Hi. lia. Qed.

Lemma gains_played s : gains_follow_current (played s).
Proof.
  intros _ i Hi. unfold session_size, played in Hi. norm_in Hi.
  rewrite length_fresh_session in Hi.
  rewrite (session_gain_fresh _ (length (AudioContext.gainNodes (ctx s)))
             (length (AudioContext.sourceNodes (ctx s))) (length (tracks s)))
    by done.
  unfold played. norm.
  rewrite lookup_app_r by lia.
  replace (length (AudioContext.gainNodes (ctx s)) + i
           - length (AudioContext.gainNodes (ctx s)))%nat with i by lia.
  by rewrite list_lookup_fmap, lookup_seq_lt by lia.
Qed.

Lemma gains_switch s g0 s0 n (num : Z) :
  playing s = true → playbackCtx s = Some (fresh_session g0 s0 n) →
  0 ≤ currentTrack s < Z.of_nat n → 0 ≤ num < Z.of_nat n →
  gains_follow_current s →
  gains_follow_current
    (set_ctx (AudioContext.set_value (g0 + Z.to_nat num) 1
                (AudioContext.set_value (g0 + Z.to_nat (currentTrack s)) 0 (ctx s)))
       (set_currentTrack num s)).
Proof.
  intros Hp Hpc Ho Hn Hg _ i Hi.
  unfold session_size in Hi. norm_in Hi. rewrite Hpc, length_fresh_session in Hi.
  specialize (Hg Hp i). unfold session_size in Hg.
  rewrite Hpc, length_fresh_session in Hg. specialize (Hg Hi).
  rewrite (session_gain_fresh _ g0 s0 n) in Hg by done.
  rewrite (session_gain_fresh _ g0 s0 n) by done. norm.
  destruct (AudioContext.gainNodes (ctx s) !! (g0 + i)%nat) as [g|] eqn:Hlk; [|done].
  destruct (Z.eqb_spec (Z.of_nat i) num) as [Hin|Hin].
  - replace (g0 + Z.to_nat num)%nat with (g0 + i)%nat by lia.
    rewrite list_lookup_alter_eq.
    destruct (decide (g0 + Z.to_nat (currentTrack s) = g0 + i)%nat) as [He|Hne].
    + rewrite He, list_lookup_alter_eq, Hlk. done.
    + rewrite list_lookup_alter_ne, Hlk by done. done.
  - rewrite list_lookup_alter_ne by lia.
    destruct (Z.eqb_spec (Z.of_nat i) (currentTrack s)) as [Hio|Hio].
    + replace (g0 + Z.to_nat (currentTrack s))%nat with (g0 + i)%nat by lia.
      rewrite list_lookup_alter_eq, Hlk. done.
    + rewrite list_lookup_alter_ne, Hlk by lia. done.
Qed.

Lemma InvSel_init tks : InvSel (PlayerEngine tks).
Proof.
  split; [apply Inv_init|]. rewrite PlayerEngine_fields. split.
  - unfold current_in_range. cbn [tracks currentTrack].
    destruct tks as [|t tks]; [by left|right]. simpl. lia.
  - by apply gains_idle.
Qed.

Lemma InvSel_select num s :
  InvSel s → 0 ≤ num < Z.of_nat (length (tracks s)) →
  InvSel (final (setCurrentTrack num s)).
Proof.
  intros (HI & Hr & Hg) Hnum.
  split; [by apply (Inv_step (Select num))|].
  pose proof (tracks_step (Select num) s) as Ht. cbn [run_op] in Ht.
  split.
  { right. unfold current_in_range. by rewrite setCurrentTrack_assigns, Ht. }
  destruct Hr as [Hr|Hr]; [rewrite Hr in Hnum; simpl in Hnum; lia|].
  unfold current_in_range in Hr.
  destruct (playing s) eqn:Hp.
  2:{ rewrite setCurrentTrack_quiet by (by rewrite Hp).
      rewrite liftX_emit_final. by apply gains_idle. }
  destruct (decide (num = currentTrack s)) as [->|Hne].
  { rewrite setCurrentTrack_quiet.
    - rewrite liftX_emit_final. by eapply gains_frame; [..|exact Hg].
    - rewrite Z.eqb_refl. cbn [negb]. by rewrite andb_false_r. }
  destruct HI as [_ Hs]. unfold session_shape in Hs.
  destruct (playbackCtx s) as [pc|] eqn:Hpc; [|congruence].
  destruct Hs as (g0 & s0 & n & -> & [-> | ->] & _ & _).
  - rewrite (setCurrentTrack_no_old _ _ _ Hp Hpc Hne) by (apply get_fresh_out; simpl; lia).
    cbn [final]. by apply gains_no_session.
  - rewrite (setCurrentTrack_switch _ _ _ _ _ Hp Hpc Hne
               (get_fresh_in _ _ _ _ Hr) (get_fresh_in _ _ _ _ Hnum)).
    rewrite liftX_emit_final. cbn [gainNode].
    by apply (gains_switch s g0 s0 (length (tracks s))).
Qed.

Lemma InvSel_step op s :
  InvSel s → selects_within (tracks s) op → InvSel (final (run_op op s)).
Proof.
  intros HI Hop. destruct op as [| | |num|track buffer|evt cb];
    [| | |by apply InvSel_select| |];
    destruct HI as (HI & Hr & Hg);
    (split; [by apply Inv_step|]); cbn [run_op].
  - (* play *)
    destruct (playing s) eqn:Hp; [by rewrite play_playing|].
    destruct (tracks s) as [|t tks] eqn:Ht.
    + rewrite play_no_tracks by done. split; [by left|]. by apply gains_no_session.
    + rewrite play_builds by (done || by rewrite Ht). split.
      * right. destruct Hr as [Hr|Hr]; [done|].
        unfold current_in_range, played in *. cbn [final]. norm. done.
      * apply gains_played.
  - (* stop *)
    destruct (playing s) eqn:Hp; [|by rewrite stop_idle].
    destruct HI as [_ Hs]. unfold session_shape in Hs.
    destruct (playbackCtx s) as [pc|] eqn:Hpc; [|congruence].
    destruct Hs as (g0 & s0 & n & -> & Hn & _ & Hst).
    rewrite (stop_session s g0 s0 n) by done. split; [done|]. by apply gains_no_session.
  - (* onEnded *)
    split; [done|]. by apply gains_idle.
  - (* trackDecodedCallback *)
    rewrite trackDecodedCallback_final. split; [done|].
    by eapply gains_frame; [..|exact Hg].
  - (* addEventListener *)
    destruct (events s !! evt) as [l|] eqn:He.
    + rewrite (liftX_add_declared _ _ _ _ He). split; [done|].
      by eapply gains_frame; [..|exact Hg].
    + by rewrite liftX_add_undeclared.
Qed.

Lemma InvSel_exec tks ops :
  Forall (selects_within tks) ops → InvSel (exec ops (PlayerEngine tks)).
Proof.
  induction ops as [|op ops IH] using rev_ind; intros H.
  - apply InvSel_init.
  - apply Forall_app in H as [Hops Hop]. apply Forall_inv in Hop.
    rewrite exec_snoc. apply InvSel_step; [by apply IH|].
    rewrite tracks_exec. exact Hop.
Qed.

Lemma reachable_selecting_InvSel s : reachable_selecting s → InvSel s.
Proof. intros (tks & ops & H & ->). by apply InvSel_exec. Qed.

(** * The playback engine: stop, play and selection *)

Lemma playing_has_session s :
  Inv s → playing s = true →
  ∃ g0 s0 n,
    playbackCtx s = Some (fresh_session g0 s0 n) ∧
    (n = O ∨ n = length (tracks s)) ∧
    sources_started (AudioContext.sourceNodes (ctx s)) s0 n.
Proof.
  intros [_ Hs] Hp. unfold session_shape in Hs.
  destruct (playbackCtx s) as [pc|]; [|congruence].
  destruct Hs as (g0 & s0 & n & -> & Hn & _ & Hst). by exists g0, s0, n.
Qed.

Lemma get_fresh_inv g0 s0 n (i : nat) e :
  JSArray.get (fresh_session g0 s0 n) (Z.of_nat i) = Some e →
  (i < n)%nat ∧ e = mkEntry (g0 + i) (s0 + i).
Proof.
  intros H. destruct (decide (i < n)%nat) as [Hi|Hi].
  - rewrite get_fresh_nat in H by done. split; [done|congruence].
  - rewrite get_fresh_out in H by lia. done.
Qed.

(** Only [onEnded] clears [playing]. *)
Lemma playing_kept_step op s :
  op ≠ Ended → playing s = true → playing (final (run_op op s)) = true.
Proof.
  intros Hop Hp. destruct op as [| | |num|track buffer|evt cb]; cbn [run_op].
  - by rewrite play_playing.
  - destruct (stop_frame s) as (g & pcx & ->). done.
  - done.
  - destruct (setCurrentTrack_cases num s) as [H|[(eo & en & H)|[H|(eo & H)]]];
      rewrite H; by rewrite ?liftX_emit_final.
  - by rewrite trackDecodedCallback_final.
  - destruct (events s !! evt) as [l|] eqn:He.
    + by rewrite (liftX_add_declared _ _ _ _ He).
    + by rewrite liftX_add_undeclared.
Qed.

Lemma playing_kept_exec ops :
  ∀ s, Ended ∉ ops → playing s = true → playing (exec ops s) = true.
Proof.
  induction ops as [|op ops IH] using rev_ind; intros s Hno Hp; [done|].
  rewrite exec_snoc. apply playing_kept_step.
  - intros ->. apply Hno, elem_of_app. right. left.
  - apply IH; [|done]. intros Hin. apply Hno, elem_of_app. by left.
Qed.

(** C1 (as amended): in every reachable state with [playing = true],
    [stop()] returns normally, stops each source of the session at time 0
    and discards the session ([playbackCtx] becomes the empty array), but
    leaves [playing] true; [playing] becomes false only when [onEnded]
    runs afterwards: any calls made after [stop()] other than [onEnded]
    keep it true, and when [onEnded] runs [playing] is false and the
    session still is the empty array. *)
Theorem stop_discards_session s :
  reachable s → playing s = true →
  let r := stop s in
  outcome r = Returned tt ∧ calls r = [] ∧
  playbackCtx (final r) = Some [] ∧
  playing (final r) = true ∧
  (∀ i e, (playbackCtx s ≫= λ pc, JSArray.get pc (Z.of_nat i)) = Some e →
     ∃ src, AudioContext.sourceNodes (ctx (final r)) !! sourceNode e = Some src ∧
            AudioContext.stopped src = Some 0) ∧
  (∀ ops, Ended ∉ ops → playing (exec ops (final r)) = true) ∧
  playing (final (onEnded (final r))) = false ∧
  playbackCtx (final (onEnded (final r))) = Some [].
Proof.
  intros Hr Hp.
  destruct (playing_has_session s (reachable_Inv s Hr) Hp) as (g0 & s0 & n & Hpc & Hn & Hst).
  cbn zeta. rewrite (stop_session s g0 s0 n Hp Hpc Hst). cbn [outcome final calls].
  do 4 (split; [done|]). split; [|split; [|done]].
  - intros i e He. rewrite Hpc in He. cbn [mbind option_bind] in He.
    apply get_fresh_inv in He as [Hi ->]. norm.
    rewrite stop_range_lookup, bool_decide_eq_true_2 by lia.
    destruct (Hst i Hi) as (src & -> & _). eexists. split; [reflexivity|done].
  - intros ops Hno. by apply playing_kept_exec.
Qed.

Lemma stop_discards_session_witness :
  let s := exec [Play] two_loaded in
  playbackCtx (final (stop s)) = Some [] ∧ playing (final (stop s)) = true ∧
  playing (final (onEnded (final (stop s)))) = false.
Proof.
  intros s.
  assert (Hr : reachable s).
  { exists [track_a; track_b], [Decoded track_a 10%nat; Decoded track_b 11%nat; Play].
    subst s. vm_compute. reflexivity. }
  assert (Hp : playing s = true) by (vm_compute; reflexivity).
  destruct (stop_discards_session s Hr Hp) as (_ & _ & H1 & H2 & _ & _ & H3 & _).
  exact (conj H1 (conj H2 H3)).
Defined.

(** C1, as stated, fails: after [play()], [stop()] leaves [playing]
    true. *)
Lemma stop_keeps_playing_counterexample :
  let s := exec [Play] two_loaded in
  reachable s ∧ playing s = true ∧
  outcome (stop s) = Returned tt ∧ playing (final (stop s)) = true.
Proof.
  intros s. split; [|by vm_compute].
  exists [track_a; track_b], [Decoded track_a 10%nat; Decoded track_b 11%nat; Play].
  subst s. vm_compute. reflexivity.
Qed.

(** C6: while [playing] is true, [play()] returns at once and leaves the
    whole engine as it was; hence a second [play()] right after a first
    changes nothing. *)
Theorem play_twice_is_play_once :
  (∀ s, playing s = true → play s = mkRun (Returned tt) s []) ∧
  (∀ s, play (final (play s)) = mkRun (Returned tt) (final (play s)) []).
Proof.
  split; [apply play_playing|].
  intros s. apply play_playing.
  destruct (playing s) eqn:Hp; [by rewrite play_playing|].
  destruct (tracks s) as [|t tks] eqn:Ht.
  - by rewrite play_no_tracks.
  - rewrite play_builds by (done || by rewrite Ht). done.
Qed.

Lemma play_twice_is_play_once_witness :
  let s := exec [Play] two_loaded in
  play s = mkRun (Returned tt) s [].
Proof.
  intros s. apply (proj1 play_twice_is_play_once). vm_compute. reflexivity.
Defined.

(** C8: [onEnded()] returns normally, calls no listener, and changes the
    field [playing] only: the session, the graph (gains and sources, so no
    source is stopped), [currentTrack], the buffers, the tracks and the
    listener table are as before. *)
Theorem onEnded_only_clears_playing s :
  onEnded s
  = mkRun (Returned tt)
      (mkEngine (events s) (ctx s) (buffers s) (tracks s) (currentTrack s) false
         (playbackCtx s))
      [].
Proof. reflexivity. Qed.

(** ** What [play] builds *)

Lemma played_gain s i :
  (i < length (tracks s))%nat →
  AudioContext.gainNodes (ctx (played s)) !! (length (AudioContext.gainNodes (ctx s)) + i)%nat
  = Some (fresh_gain (currentTrack s) i).
Proof.
  intros Hi. unfold played. norm. rewrite lookup_app_r by lia.
  replace (length (AudioContext.gainNodes (ctx s)) + i
           - length (AudioContext.gainNodes (ctx s)))%nat with i by lia.
  by rewrite list_lookup_fmap, lookup_seq_lt by lia.
Qed.

Lemma played_source s i :
  (i < length (tracks s))%nat →
  AudioContext.sourceNodes (ctx (played s))
    !! (length (AudioContext.sourceNodes (ctx s)) + i)%nat
  = Some (AudioContext.mkSource (JSArray.get (buffers s) (Z.of_nat i))
            [AudioContext.GainInput (length (AudioContext.gainNodes (ctx s)) + i)]
            (Some 0) None
            (if decide (i = O) then Some BoundOnEnded else None)).
Proof.
  intros Hi. unfold played. norm.
  assert (Hl : (AudioContext.sourceNodes (ctx s)
                ++ (fresh_source (buffers s) (length (AudioContext.gainNodes (ctx s)))
                      <$> seq 0 (length (tracks s))))
               !! (length (AudioContext.sourceNodes (ctx s)) + i)%nat
               = Some (fresh_source (buffers s) (length (AudioContext.gainNodes (ctx s))) i)).
  { rewrite lookup_app_r by lia.
    replace (length (AudioContext.sourceNodes (ctx s)) + i
             - length (AudioContext.sourceNodes (ctx s)))%nat with i by lia.
    by rewrite list_lookup_fmap, lookup_seq_lt by lia. }
  case_decide as Hz.
  - subst i. rewrite Nat.add_0_r in *. by rewrite list_lookup_alter_eq, Hl.
  - rewrite list_lookup_alter_ne by lia. by rewrite Hl.
Qed.

Lemma played_old_nodes s :
  (∀ h, (h < length (AudioContext.gainNodes (ctx s)))%nat →
     AudioContext.gainNodes (ctx (played s)) !! h = AudioContext.gainNodes (ctx s) !! h) ∧
  (∀ h, (h < length (AudioContext.sourceNodes (ctx s)))%nat →
     AudioContext.sourceNodes (ctx (played s)) !! h = AudioContext.sourceNodes (ctx s) !! h).
Proof.
  unfold played. norm. split; intros h Hh.
  - by rewrite lookup_app_l.
  - rewrite list_lookup_alter_ne by lia. by rewrite lookup_app_l.
Qed.

Lemma played_entry s (i : nat) :
  (i < length (tracks s))%nat →
  (playbackCtx (played s) ≫= λ pc, JSArray.get pc (Z.of_nat i))
  = Some (mkEntry (length (AudioContext.gainNodes (ctx s)) + i)
                  (length (AudioContext.sourceNodes (ctx s)) + i)).
Proof.
  intros Hi. unfold played. norm. cbn [mbind option_bind]. by apply get_fresh_nat.
Qed.

Lemma played_entry_inv s (i : nat) e :
  (playbackCtx (played s) ≫= λ pc, JSArray.get pc (Z.of_nat i)) = Some e →
  (i < length (tracks s))%nat ∧
  e = mkEntry (length (AudioContext.gainNodes (ctx s)) + i)
              (length (AudioContext.sourceNodes (ctx s)) + i).
Proof.
  unfold played. norm. cbn [mbind option_bind]. apply get_fresh_inv.
Qed.

Lemma session_source_entry s (i : nat) e :
  (playbackCtx s ≫= λ pc, JSArray.get pc (Z.of_nat i)) = Some e →
  session_source s i = AudioContext.sourceNodes (ctx s) !! sourceNode e.
Proof.
  unfold session_source. destruct (playbackCtx s) as [pc|]; [|done].
  cbn [mbind option_bind]. by intros ->.
Qed.

(** C5: from a state that is not playing, with every buffer present and
    [currentTrack] a track position, [play()] returns normally with
    [playing = true] and a session of one entry per track; the entry of
    track [i] holds a new gain node, connected to the destination, with
    gain 1 if [i] is [currentTrack] and 0 otherwise, and a new source node
    bound to the buffer of track [i], connected to that gain node and
    started at time 0; entries of different tracks hold different nodes,
    exactly one gain and one source per track are added to the graph, and
    the nodes the graph had are untouched. *)
Theorem play_builds_graph s :
  playing s = false → all_loaded s → current_in_range s →
  let r := play s in
  let s' := final r in
  let n := length (tracks s) in
  outcome r = Returned tt ∧ calls r = [] ∧
  playing s' = true ∧
  session_size s' = n ∧
  length (AudioContext.gainNodes (ctx s')) = (length (AudioContext.gainNodes (ctx s)) + n)%nat ∧
  length (AudioContext.sourceNodes (ctx s'))
  = (length (AudioContext.sourceNodes (ctx s)) + n)%nat ∧
  (∀ i, (i < n)%nat →
     ∃ e b,
       (playbackCtx s' ≫= λ pc, JSArray.get pc (Z.of_nat i)) = Some e ∧
       JSArray.get (buffers s) (Z.of_nat i) = Some b ∧
       (length (AudioContext.gainNodes (ctx s)) ≤ gainNode e)%nat ∧
       (length (AudioContext.sourceNodes (ctx s)) ≤ sourceNode e)%nat ∧
       AudioContext.gainNodes (ctx s') !! gainNode e
       = Some (AudioContext.mkGain (if Z.of_nat i =? currentTrack s then 1 else 0)
                 [AudioContext.Destination]) ∧
       ∃ h, AudioContext.sourceNodes (ctx s') !! sourceNode e
            = Some (AudioContext.mkSource (Some b) [AudioContext.GainInput (gainNode e)]
                      (Some 0) None h)) ∧
  (∀ i j e e',
     (playbackCtx s' ≫= λ pc, JSArray.get pc (Z.of_nat i)) = Some e →
     (playbackCtx s' ≫= λ pc, JSArray.get pc (Z.of_nat j)) = Some e' →
     i ≠ j → gainNode e ≠ gainNode e' ∧ sourceNode e ≠ sourceNode e') ∧
  (∀ h, (h < length (AudioContext.gainNodes (ctx s)))%nat →
     AudioContext.gainNodes (ctx s') !! h = AudioContext.gainNodes (ctx s) !! h) ∧
  (∀ h, (h < length (AudioContext.sourceNodes (ctx s)))%nat →
     AudioContext.sourceNodes (ctx s') !! h = AudioContext.sourceNodes (ctx s) !! h).
Proof.
  intros Hp Hload Hcur. cbn zeta.
  assert (Ht : tracks s ≠ []).
  { intros Ht. unfold current_in_range in Hcur. rewrite Ht in Hcur. simpl in Hcur. lia. }
  rewrite (play_builds s Hp Ht). cbn [outcome final calls].
  split; [done|]. split; [done|]. split; [done|].
  split; [unfold played, session_size; norm; apply length_fresh_session|].
  split; [unfold played; norm; by rewrite length_app, length_fmap, length_seq|].
  split; [unfold played; norm;
          by rewrite length_alter, length_app, length_fmap, length_seq|].
  split; [|split; [|apply played_old_nodes]].
  - intros i Hi. destruct (Hload i Hi) as [b Hb].
    eexists _, b. split; [by apply played_entry|]. cbn [gainNode sourceNode].
    split; [done|]. split; [lia|]. split; [lia|].
    split; [by rewrite played_gain|].
    eexists. rewrite played_source by done. by rewrite Hb.
  - intros i j e e' He He' Hij.
    apply played_entry_inv in He as [_ ->]. apply played_entry_inv in He' as [_ ->].
    cbn [gainNode sourceNode]. lia.
Qed.

Lemma play_builds_graph_witness :
  let s' := final (play two_loaded) in
  playing s' = true ∧ session_size s' = 2%nat ∧
  session_gain s' 0 = Some 1 ∧ session_gain s' 1 = Some 0.
Proof.
  intros s'.
  assert (Hp : playing two_loaded = false) by (vm_compute; reflexivity).
  assert (Hl : all_loaded two_loaded).
  { intros i Hi. change (length (tracks two_loaded)) with 2%nat in Hi.
    destruct i as [|[|i]]; [vm_compute; eauto..|lia]. }
  assert (Hc : current_in_range two_loaded) by (vm_compute; split; congruence).
  destruct (play_builds_graph two_loaded Hp Hl Hc) as (_ & _ & H1 & H2 & _).
  split; [exact H1|]. split; [exact H2|]. split; vm_compute; reflexivity.
Defined.

(** C9: a call of [play()] that starts from a state that is not playing
    and returns normally leaves the [ended] handler on the source of the
    session's track 0 and on no other source of the session, whatever
    [currentTrack] is. *)
Theorem ended_handler_on_track_0 s :
  playing s = false → outcome (play s) = Returned tt →
  let s' := final (play s) in
  (∃ src, session_source s' 0 = Some src ∧
          AudioContext.onended src = Some BoundOnEnded) ∧
  (∀ i src, i ≠ O → session_source s' i = Some src → AudioContext.onended src = None) ∧
  (∀ i, (i < length (tracks s))%nat → is_Some (session_source s' i)).
Proof.
  intros Hp Hret. cbn zeta.
  destruct (tracks s) as [|t tks] eqn:Ht.
  { by rewrite play_no_tracks in Hret. }
  assert (Hne : tracks s ≠ []) by (by rewrite Ht).
  rewrite (play_builds s Hp Hne). cbn [final]. rewrite <- Ht. clear Hret.
  assert (Hsrc : ∀ i, (i < length (tracks s))%nat →
            session_source (played s) i
            = Some (AudioContext.mkSource (JSArray.get (buffers s) (Z.of_nat i))
                      [AudioContext.GainInput (length (AudioContext.gainNodes (ctx s)) + i)]
                      (Some 0) None
                      (if decide (i = O) then Some BoundOnEnded else None))).
  { intros i Hi. rewrite (session_source_entry _ _ _ (played_entry s i Hi)).
    by apply played_source. }
  split; [|split].
  - rewrite Hsrc by (rewrite Ht; simpl; lia). eexists. split; [reflexivity|done].
  - intros i src Hi Hs.
    destruct (decide (i < length (tracks s))%nat) as [Hlt|Hge].
    + rewrite Hsrc in Hs by done. simplify_eq. cbn [AudioContext.onended].
      by rewrite decide_False.
    + unfold session_source, played in Hs. norm_in Hs. cbn [mbind option_bind] in Hs.
      rewrite get_fresh_out in Hs by lia. done.
  - intros i Hi. rewrite Hsrc by done. eauto.
Qed.

Lemma ended_handler_on_track_0_witness :
  let s' := final (play (exec [Select 1] two_loaded)) in
  ∃ src, session_source s' 0 = Some src ∧ AudioContext.onended src = Some BoundOnEnded.
Proof.
  intros s'.
  apply (ended_handler_on_track_0 (exec [Select 1] two_loaded)); vm_compute; reflexivity.
Defined.

Lemma session_gain_bound s i v : session_gain s i = Some v → (i < session_size s)%nat.
Proof.
  unfold session_gain, session_size. destruct (playbackCtx s) as [pc|]; [|done].
  cbn [mbind option_bind]. unfold JSArray.get.
  rewrite (proj2 (Z.ltb_ge _ _)) by lia. rewrite Nat2Z.id.
  destruct (pc !! i) as [e|] eqn:He; [|done]. intros _. by eapply lookup_lt_Some.
Qed.

(** C3: in every state reached with selections that are track positions,
    while [playing] is true each gain of the session is 1 or 0, the gain
    of track [i] is 1 exactly when [i] is [currentTrack], and so at most
    one gain is 1; [play()] from a state that is not playing, with
    [currentTrack] a track position, gives gain 1 to the track at
    [currentTrack] and 0 to every other track; [setCurrentTrack(num)]
    with [num] a track position keeps the property. *)
Theorem one_gain_active :
  (∀ s, reachable_selecting s → playing s = true →
     (∀ i, (i < session_size s)%nat →
        session_gain s i = Some (if Z.of_nat i =? currentTrack s then 1 else 0)) ∧
     (∀ i, (i < session_size s)%nat →
        session_gain s i = Some 1 ∨ session_gain s i = Some 0) ∧
     (∀ i j, session_gain s i = Some 1 → session_gain s j = Some 1 → i = j)) ∧
  (∀ s, playing s = false → current_in_range s →
     playing (final (play s)) = true ∧
     session_size (final (play s)) = length (tracks s) ∧
     ∀ i, (i < length (tracks s))%nat →
       session_gain (final (play s)) i
       = Some (if Z.of_nat i =? currentTrack s then 1 else 0)) ∧
  (∀ s num, reachable_selecting s → playing s = true →
     0 ≤ num < Z.of_nat (length (tracks s)) →
     let s' := final (setCurrentTrack num s) in
     playing s' = true ∧ currentTrack s' = num ∧
     ∀ i, (i < session_size s')%nat →
       session_gain s' i = Some (if Z.of_nat i =? num then 1 else 0)).
Proof.
  split; [|split].
  - intros s Hr Hp. destruct (reachable_selecting_InvSel s Hr) as (_ & _ & Hg).
    specialize (Hg Hp). split; [exact Hg|]. split.
    + intros i Hi. rewrite (Hg i Hi). destruct (Z.of_nat i =? currentTrack s); eauto.
    + intros i j Hi Hj.
      pose proof (session_gain_bound _ _ _ Hi) as Hbi.
      pose proof (session_gain_bound _ _ _ Hj) as Hbj.
      rewrite (Hg i Hbi) in Hi. rewrite (Hg j Hbj) in Hj.
      destruct (Z.eqb_spec (Z.of_nat i) (currentTrack s)); [|done].
      destruct (Z.eqb_spec (Z.of_nat j) (currentTrack s)); [|done]. lia.
  - intros s Hp Hcur.
    assert (Ht : tracks s ≠ []).
    { intros Ht. unfold current_in_range in Hcur. rewrite Ht in Hcur. simpl in Hcur. lia. }
    rewrite (play_builds s Hp Ht). cbn [final].
    assert (Hsize : session_size (played s) = length (tracks s)).
    { unfold played, session_size. norm. apply length_fresh_session. }
    split; [done|]. split; [done|].
    intros i Hi. apply (gains_played s); [done|]. by rewrite Hsize.
  - intros s num Hr Hp Hnum. cbn zeta.
    pose proof (InvSel_select num s (reachable_selecting_InvSel s Hr) Hnum) as (_ & _ & Hg).
    assert (Hpl : playing (final (setCurrentTrack num s)) = true).
    { destruct (setCurrentTrack_cases num s) as [H|[(eo & en & H)|[H|(eo & H)]]];
        rewrite H; by rewrite ?liftX_emit_final. }
    split; [done|]. split; [apply setCurrentTrack_assigns|].
    intros i Hi. rewrite (Hg Hpl i Hi). by rewrite setCurrentTrack_assigns.
Qed.

Lemma one_gain_active_witness :
  let s := exec [Play; Select 1] two_loaded in
  (∀ i, (i < session_size s)%nat →
     session_gain s i = Some (if Z.of_nat i =? currentTrack s then 1 else 0)) ∧
  session_gain (final (play two_loaded)) 0
  = Some (if Z.of_nat 0 =? currentTrack two_loaded then 1 else 0) ∧
  playing (final (setCurrentTrack 0 s)) = true.
Proof.
  intros s.
  destruct one_gain_active as (Hinv & Hplay & Hsel).
  assert (Hr : reachable_selecting s).
  { exists [track_a; track_b],
      [Decoded track_a 10%nat; Decoded track_b 11%nat; Play; Select 1].
    split; [|subst s; vm_compute; reflexivity].
    repeat constructor; simpl; lia. }
  assert (Hp : playing s = true) by (vm_compute; reflexivity).
  split; [apply (Hinv s Hr Hp)|]. split.
  - apply (Hplay two_loaded); [vm_compute; reflexivity| |vm_compute; lia].
    vm_compute. split; congruence.
  - apply (Hsel s 0 Hr Hp). vm_compute. split; congruence.
Defined.

(** C4 (as amended): [setCurrentTrack(num)] always leaves [currentTrack]
    equal to [num].  With [trackChanged] declared, it returns normally and
    invokes each [trackChanged] listener exactly once, in order, with
    [num], whenever the engine is not playing, or has no session object,
    or [num] is the current index, or the session holds an entry at the
    current index and at [num]; when it is playing a session that holds
    the current index but has no entry at [num], it throws a [TypeError]
    and calls no listener. *)
Theorem setCurrentTrack_emits num s ls :
  events s !! "trackChanged" = Some ls →
  let r := setCurrentTrack num s in
  currentTrack (final r) = num ∧
  ((playing s = false ∨ playbackCtx s = None ∨ num = currentTrack s ∨
    (∃ pc eo en, playbackCtx s = Some pc ∧
                 JSArray.get pc (currentTrack s) = Some eo ∧
                 JSArray.get pc num = Some en)) →
   outcome r = Returned tt ∧ calls r = (λ cb, (cb, DNum num)) <$> ls) ∧
  (∀ pc eo, playing s = true → playbackCtx s = Some pc → num ≠ currentTrack s →
            JSArray.get pc (currentTrack s) = Some eo → JSArray.get pc num = None →
            outcome r = Thrown TypeError ∧ calls r = []).
Proof.
  intros He. cbn zeta. split; [apply setCurrentTrack_assigns|]. split.
  - intros Hcase.
    destruct (playing s && is_object (playbackCtx s) && negb (num =? currentTrack s)) eqn:Hq.
    2:{ rewrite (setCurrentTrack_quiet _ _ Hq).
        by rewrite (liftX_emit_declared _ _ _ ls). }
    apply andb_prop in Hq as [[Hp Hpc]%andb_prop Hne].
    apply negb_true_iff, Z.eqb_neq in Hne.
    destruct Hcase as [H|[H|[H|(pc & eo & en & Hpcx & Ho & Hn)]]];
      [congruence|by rewrite H in Hpc|done|].
    rewrite (setCurrentTrack_switch _ _ _ _ _ Hp Hpcx Hne Ho Hn).
    by rewrite (liftX_emit_declared _ _ _ ls).
  - intros pc eo Hp Hpc Hne Ho Hn.
    by rewrite (setCurrentTrack_no_new _ _ _ _ Hp Hpc Hne Ho Hn).
Qed.

Lemma setCurrentTrack_emits_witness :
  let s := exec [Listen "trackChanged" 7%nat; Play] two_loaded in
  currentTrack (final (setCurrentTrack 1 s)) = 1 ∧
  outcome (setCurrentTrack 1 s) = Returned tt ∧
  calls (setCurrentTrack 1 s) = [(7%nat, DNum 1)].
Proof.
  intros s.
  assert (He : events s !! "trackChanged" = Some [7%nat]) by (vm_compute; reflexivity).
  destruct (setCurrentTrack_emits 1 s [7%nat] He) as (H1 & H2 & _).
  split; [exact H1|]. apply H2. right. right. right.
  exists [Some (mkEntry 0 0); Some (mkEntry 1 1)], (mkEntry 0 0), (mkEntry 1 1).
  split; [|split]; vm_compute; reflexivity.
Defined.

(** C4, as stated, fails: while a session is playing, an index outside
    the session has no entry, and [setCurrentTrack] throws before it
    emits. *)
Lemma setCurrentTrack_emits_counterexample :
  let s := exec [Listen "trackChanged" 7%nat; Play] two_loaded in
  reachable s ∧ events s !! "trackChanged" = Some [7%nat] ∧
  outcome (setCurrentTrack 5 s) = Thrown TypeError ∧ calls (setCurrentTrack 5 s) = [].
Proof.
  intros s. split; [|split; [|split]; vm_compute; reflexivity].
  exists [track_a; track_b],
    [Decoded track_a 10%nat; Decoded track_b 11%nat; Listen "trackChanged" 7%nat; Play].
  subst s. vm_compute. reflexivity.
Qed.

(** ** Who writes [currentTrack] *)

Lemma play_keeps_currentTrack s : currentTrack (final (play s)) = currentTrack s.
Proof.
  destruct (playing s) eqn:Hp; [by rewrite play_playing|].
  destruct (tracks s) as [|t tks] eqn:Ht.
  - by rewrite play_no_tracks.
  - rewrite play_builds by (done || by rewrite Ht). done.
Qed.

Lemma stop_keeps_currentTrack s : currentTrack (final (stop s)) = currentTrack s.
Proof. destruct (stop_frame s) as (g & pcx & ->). done. Qed.

Lemma loadSingleTrack_final canPlayType i s :
  final (loadSingleTrack canPlayType i s) = s.
Proof.
  unfold loadSingleTrack. destruct (tracks s !! i) as [t|] eqn:Ht.
  - erewrite bind_pure; [done|]. by apply (gets_defined (λ this, tracks this !! i)).
  - erewrite bind_throw; [done|]. by apply (gets_undefined (λ this, tracks this !! i)).
Qed.

Lemma bind_final_same {St A B} (m : M St A) (k : A → M St B) s :
  final (m s) = s → (∀ a, final (k a s) = s) → final ((m ≫= k) s) = s.
Proof.
  intros Hm Hk. unfold mbind, M_bind, bind.
  destruct (outcome (m s)); cbn [final]; [|done]. rewrite Hm. apply Hk.
Qed.

Lemma for_loop_final_same {St} (body : nat → M St unit) :
  (∀ i s, final (body i s) = s) → ∀ n i s, final (for_loop n i body s) = s.
Proof.
  intros Hb n. induction n as [|n IH]; intros i s; [done|].
  cbn [for_loop]. apply bind_final_same; [apply Hb|]. intros _. apply IH.
Qed.

Lemma loadTracks_final canPlayType s : final (loadTracks canPlayType s) = s.
Proof.
  unfold loadTracks. run_pure. apply for_loop_final_same.
  intros i s'. apply bind_final_same; [apply loadSingleTrack_final|done].
Qed.

Lemma listen_keeps_currentTrack evt cb s :
  currentTrack (final (liftX (XObject.addEventListener evt cb) s)) = currentTrack s.
Proof.
  destruct (events s !! evt) as [l|] eqn:He.
  - by rewrite (liftX_add_declared _ _ _ _ He).
  - by rewrite liftX_add_undeclared.
Qed.

Lemma currentTrack_step op s :
  (∀ num, op ≠ Select num) → currentTrack (final (run_op op s)) = currentTrack s.
Proof.
  intros Hop. destruct op as [| | |num|track buffer|evt cb]; cbn [run_op].
  - apply play_keeps_currentTrack.
  - apply stop_keeps_currentTrack.
  - done.
  - by destruct (Hop num).
  - by rewrite trackDecodedCallback_final.
  - apply listen_keeps_currentTrack.
Qed.

(** C7 (as amended): in every state reached from the constructor on a
    non-empty track list by calls whose selections are track positions,
    [currentTrack] is in [0, trackCount); [play], [stop], [onEnded], the
    decode callback, [loadSingleTrack], [loadTracks] and listener
    registration leave [currentTrack] as it is, so it is the same after
    any history without a selection; [setCurrentTrack(num)] sets it to
    [num]. *)
Theorem currentTrack_written_by_selection_only :
  (∀ s, reachable_selecting s → tracks s ≠ [] → current_in_range s) ∧
  (∀ s, currentTrack (final (play s)) = currentTrack s ∧
        currentTrack (final (stop s)) = currentTrack s ∧
        currentTrack (final (onEnded s)) = currentTrack s) ∧
  (∀ s track buffer,
     currentTrack (final (trackDecodedCallback track buffer s)) = currentTrack s) ∧
  (∀ canPlayType s i,
     final (loadTracks canPlayType s) = s ∧ final (loadSingleTrack canPlayType i s) = s) ∧
  (∀ ops s, (∀ num, Select num ∉ ops) → currentTrack (exec ops s) = currentTrack s) ∧
  (∀ s num, currentTrack (final (setCurrentTrack num s)) = num).
Proof.
  split; [|split; [|split; [|split; [|split]]]].
  - intros s Hr Ht. destruct (reachable_selecting_InvSel s Hr) as (_ & [?|?] & _); done.
  - intros s. split; [apply play_keeps_currentTrack|].
    split; [apply stop_keeps_currentTrack|done].
  - intros s track buffer. by rewrite trackDecodedCallback_final.
  - intros canPlayType s i. split; [apply loadTracks_final|apply loadSingleTrack_final].
  - intros ops. induction ops as [|op ops IH] using rev_ind; intros s Hops; [done|].
    rewrite exec_snoc, currentTrack_step.
    + apply IH. intros num Hin. apply (Hops num). apply elem_of_app. by left.
    + intros num ->. apply (Hops num). apply elem_of_app. right. left.
  - intros s num. apply setCurrentTrack_assigns.
Qed.

Lemma currentTrack_written_by_selection_only_witness :
  let s := exec [Play; Select 1; Stop] two_loaded in
  current_in_range s ∧
  currentTrack (exec [Play; Stop; Ended; Play] s) = currentTrack s.
Proof.
  intros s.
  destruct currentTrack_written_by_selection_only as (Hrange & _ & _ & _ & Hkeep & _).
  split.
  - apply Hrange.
    + exists [track_a; track_b],
        [Decoded track_a 10%nat; Decoded track_b 11%nat; Play; Select 1; Stop].
      split; [|subst s; vm_compute; reflexivity].
      repeat constructor; simpl; lia.
    + vm_compute. congruence.
  - apply Hkeep. intros num Hin.
    repeat (apply elem_of_cons in Hin as [Hin|Hin]; [discriminate|]).
    by apply not_elem_of_nil in Hin.
Defined.

(** C7, as stated, fails: an engine built on an empty track list has
    [currentTrack = 0] outside the empty range, and [setCurrentTrack]
    stores any index it is given. *)
Lemma currentTrack_range_counterexample :
  (reachable (PlayerEngine []) ∧ ¬ current_in_range (PlayerEngine [])) ∧
  (let s := exec [Select 5] (PlayerEngine [track_a; track_b]) in
   reachable s ∧ ¬ current_in_range s).
Proof.
  split.
  - split; [by exists [], []|]. vm_compute. intros [_ H]. discriminate.
  - intros s. split; [by exists [track_a; track_b], [Select 5]|].
    vm_compute. intros [_ H]. discriminate.
Qed.

(** ** The scenario of the specification

    Two tracks, one with an mp4 source and one with an ogg source, on a
    host that plays both: the loader picks [a.mp4] and [b.ogg]; after both
    are decoded [play()] creates two sources with gains 1 and 0, and
    [setCurrentTrack(1)] turns the gains into 0 and 1 and calls the
    [trackChanged] listener with 1. *)
Example two_track_scenario :
  let s := exec [Listen "trackChanged" 7%nat; Play] two_loaded in
  let r := setCurrentTrack 1 s in
  selectTrackUri (λ _, Probably) track_a = Some "a.mp4" ∧
  selectTrackUri (λ _, Probably) track_b = Some "b.ogg" ∧
  length (AudioContext.sourceNodes (ctx s)) = 2%nat ∧
  (session_gain s 0, session_gain s 1) = (Some 1, Some 0) ∧
  (session_gain (final r) 0, session_gain (final r) 1) = (Some 0, Some 1) ∧
  outcome r = Returned tt ∧ calls r = [(7%nat, DNum 1)].
Proof. intros s r. subst r s. vm_compute. repeat split. Qed.

(** * Further properties *)

(** ** Listener lists over histories *)

Lemma xobject_final_lookup op o evt :
  XObject.events (final (XObject.run_op op o)) !! evt
  = match op with
    | XObject.OpDeclare e => if decide (e = evt) then Some [] else XObject.events o !! evt
    | XObject.OpAdd e cb =>
        if decide (e = evt) then (λ l, l ++ [cb]) <$> XObject.events o !! evt
        else XObject.events o !! evt
    | XObject.OpEmit _ _ => XObject.events o !! evt
    end.
Proof.
  destruct op as [e|e cb|e d]; cbn [XObject.run_op].
  - unfold XObject.declareEvent, modify. cbn [final XObject.events].
    rewrite lookup_insert. by case_decide.
  - destruct (XObject.events o !! e) as [l|] eqn:He.
    + rewrite (XObjectFacts.add_declared _ _ _ _ He). cbn [final XObject.events].
      rewrite lookup_insert. case_decide; [subst; by rewrite He|done].
    + rewrite (XObjectFacts.add_undeclared _ _ _ He). cbn [final].
      case_decide; [subst; by rewrite He|done].
  - destruct (XObject.events o !! e) as [l|] eqn:He.
    + by rewrite (XObjectFacts.emit_declared _ _ _ _ He).
    + by rewrite XObjectFacts.emit_final.
Qed.

Lemma listeners_accumulate evt post :
  ∀ o l,
    XObject.events o !! evt = Some l →
    (∀ op, op ∈ post → op ≠ XObject.OpDeclare evt) →
    XObject.events (XObject.exec post o) !! evt = Some (l ++ added_to evt post).
Proof.
  induction post as [|op post IH]; intros o l Hl Hno.
  - by rewrite app_nil_r.
  - change (XObject.exec (op :: post) o)
      with (XObject.exec post (final (XObject.run_op op o))).
    assert (Hpost : ∀ op', op' ∈ post → op' ≠ XObject.OpDeclare evt).
    { intros op' Hin. apply Hno. by right. }
    assert (Hop : op ≠ XObject.OpDeclare evt) by (apply Hno; left).
    pose proof (xobject_final_lookup op o evt) as Hstep.
    destruct op as [e|e cb|e d]; unfold added_to; cbn [omap list_omap].
    + rewrite decide_False in Hstep by congruence. rewrite Hl in Hstep.
      by apply IH.
    + case_decide as He.
      * rewrite Hl in Hstep. cbn [fmap option_fmap option_map] in Hstep.
        rewrite (IH _ _ Hstep Hpost).
        by rewrite <- app_assoc.
      * rewrite Hl in Hstep. by apply IH.
    + rewrite Hl in Hstep. by apply IH.
Qed.

(** X1: after [declareEvent(evt)], the listener list of [evt] holds
    exactly the callbacks registered for [evt] since that call, in
    registration order (one occurrence per registration); whatever was
    registered before the declaration is dropped, and calls about other
    events do not matter.  [emitEvent] then invokes exactly these. *)
Theorem listeners_since_last_declare pre post evt d :
  (∀ op, op ∈ post → op ≠ XObject.OpDeclare evt) →
  let o := XObject.exec (pre ++ XObject.OpDeclare evt :: post) XObject.new in
  XObject.events o !! evt = Some (added_to evt post) ∧
  XObject.emitEvent evt d o = mkRun (Returned tt) o ((λ cb, (cb, d)) <$> added_to evt post).
Proof.
  intros Hno o.
  assert (Hl : XObject.events o !! evt = Some (added_to evt post)).
  { subst o. unfold XObject.exec. rewrite foldl_app. cbn [foldl].
    apply (listeners_accumulate evt post _ []); [|done].
    rewrite xobject_final_lookup. by rewrite decide_True. }
  split; [done|]. by apply XObjectFacts.emit_declared.
Qed.

Lemma listeners_since_last_declare_witness :
  let o := XObject.exec
             [XObject.OpDeclare "e"; XObject.OpAdd "e" 1%nat; XObject.OpDeclare "e";
              XObject.OpAdd "e" 2%nat; XObject.OpAdd "f" 3%nat; XObject.OpAdd "e" 2%nat]
             XObject.new in
  XObject.events o !! "e" = Some [2%nat; 2%nat].
Proof.
  intros o.
  apply (listeners_since_last_declare
           [XObject.OpDeclare "e"; XObject.OpAdd "e" 1%nat]
           [XObject.OpAdd "e" 2%nat; XObject.OpAdd "f" 3%nat; XObject.OpAdd "e" 2%nat]
           "e" DObject).
  intros op Hin.
  repeat (apply elem_of_cons in Hin as [->|Hin]; [discriminate|]).
  by apply not_elem_of_nil in Hin.
Defined.

(** ** More on source selection *)

(** X2: a URI returned by [selectTrackUri] is always one the track
    declares: the function never makes up a URI, whatever the host
    answers. *)
Theorem selectTrackUri_returns_declared canPlayType track uri :
  selectTrackUri canPlayType track = Some uri →
  ∃ codec, (codec, uri) ∈ sources track.
Proof.
  unfold selectTrackUri.
  destruct (scan canPlayType preferred track) as [r|] eqn:Hp.
  { apply scan_returns in Hp as (c & _ & _ & ->). intros H. exists c.
    by apply prop_get_elem. }
  destruct (scan canPlayType (sources track).*1 track) as [r|] eqn:Hk.
  { apply scan_returns in Hk as (c & _ & _ & ->). intros H. exists c.
    by apply prop_get_elem. }
  intros H. exists "audio/wav". by apply prop_get_elem.
Qed.

Lemma selectTrackUri_returns_declared_witness :
  ∃ codec, (codec, "b.ogg") ∈ sources track_b.
Proof.
  apply (selectTrackUri_returns_declared (λ _, Maybe) track_b "b.ogg"). reflexivity.
Defined.

(** X3: [selectTrackUri] returns [undefined] exactly when the host can
    play none of the declared types and the track declares no
    [audio/wav] source; in particular a track without sources yields
    [undefined]. *)
Theorem selectTrackUri_undefined_iff canPlayType track :
  selectTrackUri canPlayType track = None ↔
  (∀ c, c ∈ (sources track).*1 → truthy (canPlayType c) = false) ∧
  "audio/wav" ∉ (sources track).*1.
Proof.
  split.
  - intros Hnone.
    assert (Hno : ∀ c, c ∈ (sources track).*1 → truthy (canPlayType c) = false).
    { intros c Hc. destruct (truthy (canPlayType c)) eqn:Ht; [|done].
      destruct (selected_is_usable canPlayType track) as (c' & u & _ & _ & Hsel);
        [by exists c|congruence]. }
    split; [done|].
    unfold selectTrackUri in Hnone.
    rewrite scan_miss in Hnone by (intros; by apply unplayable_unusable).
    rewrite scan_miss in Hnone by (intros; by apply unplayable_unusable).
    intros Hwav. apply has_key_keys in Hwav. unfold has_key in Hwav.
    by rewrite Hnone in Hwav.
  - intros [Hno Hwav]. unfold selectTrackUri.
    rewrite scan_miss by (intros; by apply unplayable_unusable).
    rewrite scan_miss by (intros; by apply unplayable_unusable).
    destruct (prop_get "audio/wav" (sources track)) as [u|] eqn:Hg; [|done].
    destruct Hwav. apply has_key_keys. unfold has_key. by rewrite Hg.
Qed.

Lemma scan_same_truthiness h1 h2 track codecs :
  (∀ c, c ∈ codecs → truthy (h1 c) = truthy (h2 c)) →
  scan h1 codecs track = scan h2 codecs track.
Proof.
  induction codecs as [|c codecs IH]; intros H; [done|].
  cbn [scan]. rewrite (H c) by left. rewrite IH; [done|].
  intros c' Hc'. apply H. by right.
Qed.

(** X4: the choice depends on the host only through whether its answer
    for a preferred or declared type is empty or not: ["maybe"] and
    ["probably"] are treated alike, so a ["maybe"] type earlier in the
    order wins over a ["probably"] type later in it. *)
Theorem selectTrackUri_ignores_confidence h1 h2 track :
  (∀ c, c ∈ preferred ++ (sources track).*1 → truthy (h1 c) = truthy (h2 c)) →
  selectTrackUri h1 track = selectTrackUri h2 track.
Proof.
  intros H. unfold selectTrackUri.
  rewrite (scan_same_truthiness h1 h2 track preferred).
  2:{ intros c Hc. apply H, elem_of_app. by left. }
  rewrite (scan_same_truthiness h1 h2 track (sources track).*1).
  2:{ intros c Hc. apply H, elem_of_app. by right. }
  done.
Qed.

Lemma selectTrackUri_ignores_confidence_witness :
  let track := mkTrack 0 "A" "a.png" [("audio/ogg", "a.ogg"); ("audio/mp4", "a.mp4")] in
  selectTrackUri (λ c, if decide (c = "audio/mp4") then Maybe else Probably) track
  = selectTrackUri (λ _, Probably) track.
Proof.
  intros track. apply selectTrackUri_ignores_confidence.
  intros c _. simpl. by case_decide.
Defined.

(** ** Arrays with holes *)

Lemma JSArray_get_set_eq {A} (a : JSArray.t A) (i : Z) v :
  0 ≤ i → JSArray.get (JSArray.set a i v) i = Some v.
Proof.
  intros Hi. unfold JSArray.get, JSArray.set, JSArray.set_nat.
  rewrite (proj2 (Z.ltb_ge _ _)) by lia. cbn [JSArray.elems].
  destruct (Nat.ltb_spec (Z.to_nat i) (length a)) as [Hlt|Hge].
  - by rewrite list_lookup_insert_eq.
  - rewrite lookup_app_r by done.
    rewrite list_lookup_middle; [done|]. by rewrite length_replicate.
Qed.

Lemma JSArray_get_set_ne {A} (a : JSArray.t A) (i j : Z) v :
  i ≠ j → JSArray.get (JSArray.set a i v) j = JSArray.get a j.
Proof.
  intros Hij. unfold JSArray.get, JSArray.set, JSArray.set_nat.
  destruct (Z.ltb_spec i 0) as [Hi|Hi]; [done|]. cbn [JSArray.elems].
  destruct (Z.ltb_spec j 0) as [Hj|Hj]; [done|].
  assert (Hn : Z.to_nat i ≠ Z.to_nat j) by lia.
  destruct (Nat.ltb_spec (Z.to_nat i) (length a)) as [Hlt|Hge].
  - by rewrite list_lookup_insert_ne.
  - destruct (decide (Z.to_nat j < length a)%nat) as [Hjl|Hjl].
    + by rewrite lookup_app_l.
    + rewrite lookup_app_r by lia. rewrite (lookup_ge_None_2 a) by lia.
      destruct (decide (Z.to_nat j - length a < Z.to_nat i - length a)%nat) as [Hlt|Hge'].
      * rewrite lookup_app_l by (by rewrite length_replicate).
        by rewrite lookup_replicate_2.
      * rewrite lookup_app_r by (rewrite length_replicate; lia).
        rewrite length_replicate.
        destruct (Z.to_nat j - length a - (Z.to_nat i - length a))%nat as [|k] eqn:Hk;
          [lia|done].
Qed.

Lemma indexOf_from_absent {A} `{EqDecision A} (x : A) (a : list A) :
  ∀ k, x ∉ a → JSArray.indexOf_from x a k = -1.
Proof.
  induction a as [|y a IH]; intros k Hx; [done|].
  apply not_elem_of_cons in Hx as [Hne Hx]. cbn [JSArray.indexOf_from].
  rewrite decide_False by done. by apply IH.
Qed.

Lemma indexOf_from_first {A} `{EqDecision A} (x : A) (a : list A) :
  ∀ k i, a !! i = Some x → (∀ j, (j < i)%nat → a !! j ≠ Some x) →
         JSArray.indexOf_from x a k = k + Z.of_nat i.
Proof.
  induction a as [|y a IH]; intros k i Hi Hfirst; [done|].
  cbn [JSArray.indexOf_from]. destruct i as [|i].
  - simpl in Hi. simplify_eq. rewrite decide_True by done. lia.
  - rewrite decide_False.
    2:{ intros ->. by apply (Hfirst O); [lia|]. }
    rewrite (IH (k + 1) i); [lia|done|].
    intros j Hj. apply (Hfirst (S j)). lia.
Qed.

(** ** The decode callback *)

Lemma trackDecodedCallback_run track buffer s ls :
  events s !! "trackLoaded" = Some ls →
  trackDecodedCallback track buffer s
  = mkRun (Returned tt)
      (set_buffers (JSArray.set (buffers s) (JSArray.indexOf track (tracks s)) buffer) s)
      ((λ cb, (cb, DObject)) <$> ls).
Proof.
  intros He. unfold trackDecodedCallback. do 2 (run_pure; norm).
  by apply liftX_emit_declared.
Qed.

(** X5: when the decode of a track of the list completes, the buffer is
    stored at the position of the first occurrence of that track, every
    other position of the buffer table keeps its content (a later load
    for the same track overwrites the earlier buffer), nothing else in
    the engine changes, and each [trackLoaded] listener is called once
    with an empty object. *)
Theorem trackDecodedCallback_stores track buffer s ls (i : nat) :
  events s !! "trackLoaded" = Some ls →
  tracks s !! i = Some track →
  (∀ j, (j < i)%nat → tracks s !! j ≠ Some track) →
  let r := trackDecodedCallback track buffer s in
  r = mkRun (Returned tt) (set_buffers (JSArray.set (buffers s) (Z.of_nat i) buffer) s)
        ((λ cb, (cb, DObject)) <$> ls) ∧
  JSArray.get (buffers (final r)) (Z.of_nat i) = Some buffer ∧
  (∀ j, j ≠ Z.of_nat i →
        JSArray.get (buffers (final r)) j = JSArray.get (buffers s) j).
Proof.
  intros He Hi Hfirst. cbn zeta.
  rewrite (trackDecodedCallback_run _ _ _ _ He).
  unfold JSArray.indexOf. rewrite (indexOf_from_first _ _ 0 i Hi Hfirst), Z.add_0_l.
  split; [done|]. cbn [final]. norm. split.
  - apply JSArray_get_set_eq. lia.
  - intros j Hj. by apply JSArray_get_set_ne.
Qed.

Lemma trackDecodedCallback_stores_witness :
  let s := exec [Listen "trackLoaded" 3%nat] (PlayerEngine [track_a; track_b]) in
  let r := trackDecodedCallback track_b 11%nat s in
  calls r = [(3%nat, DObject)] ∧ buffers (final r) = JSArray.mk [None; Some 11%nat] ∅.
Proof.
  intros s r.
  assert (He : events s !! "trackLoaded" = Some [3%nat]) by (vm_compute; reflexivity).
  assert (Hi : tracks s !! 1%nat = Some track_b) by (vm_compute; reflexivity).
  assert (Hf : ∀ j, (j < 1)%nat → tracks s !! j ≠ Some track_b).
  { intros j Hj. assert (j = O) as -> by lia. vm_compute. discriminate. }
  destruct (trackDecodedCallback_stores track_b 11%nat s [3%nat] 1 He Hi Hf) as (Hr & _ & _).
  subst r. rewrite Hr. split; vm_compute; reflexivity.
Defined.

(** X6: a decode completion for a track that is not in the track list
    ([indexOf] yields -1) stores no element in the buffer table: the
    buffer becomes the property [-1] of the array object, every element
    and every other property of the table is as before, the rest of the
    engine is unchanged, and every [trackLoaded] listener is still
    notified. *)
Theorem trackDecodedCallback_unknown_track track buffer s ls :
  events s !! "trackLoaded" = Some ls →
  track ∉ tracks s →
  let r := trackDecodedCallback track buffer s in
  r = mkRun (Returned tt) (set_buffers (JSArray.set (buffers s) (-1) buffer) s)
        ((λ cb, (cb, DObject)) <$> ls) ∧
  JSArray.elems (buffers (final r)) = JSArray.elems (buffers s) ∧
  JSArray.read (buffers (final r)) (-1) = Some buffer ∧
  (∀ j, j ≠ -1 → JSArray.read (buffers (final r)) j = JSArray.read (buffers s) j).
Proof.
  intros He Hno. cbn zeta. rewrite (trackDecodedCallback_run _ _ _ _ He).
  unfold JSArray.indexOf. rewrite indexOf_from_absent by done.
  split; [done|]. cbn [final]. norm. unfold JSArray.set, JSArray.read.
  cbn [Z.ltb Z.compare JSArray.elems JSArray.props]. split; [done|]. split.
  - by rewrite lookup_insert_eq.
  - intros j Hj. destruct (j <? 0); [|done]. by rewrite lookup_insert_ne.
Qed.

Lemma trackDecodedCallback_unknown_track_witness :
  let s := exec [Listen "trackLoaded" 3%nat] (PlayerEngine [track_a]) in
  let r := trackDecodedCallback track_b 11%nat s in
  calls r = [(3%nat, DObject)] ∧
  JSArray.elems (buffers (final r)) = JSArray.elems (buffers s) ∧
  JSArray.read (buffers (final r)) (-1) = Some 11%nat.
Proof.
  intros s r.
  assert (He : events s !! "trackLoaded" = Some [3%nat]) by (vm_compute; reflexivity).
  assert (Hno : track_b ∉ tracks s).
  { intros Hin. apply list_elem_of_singleton in Hin. discriminate. }
  destruct (trackDecodedCallback_unknown_track track_b 11%nat s [3%nat] He Hno)
    as (Hr & He' & Hm & _).
  subst r. split; [by rewrite Hr|]. exact (conj He' Hm).
Defined.

(** ** What each call leaves alone *)

Lemma play_final_cases s :
  final (play s) = s ∨
  final (play s) = set_playbackCtx (Some []) (set_playing true s) ∨
  final (play s) = played s.
Proof.
  destruct (playing s) eqn:Hp; [left; by rewrite play_playing|].
  destruct (tracks s) as [|t tks] eqn:Ht.
  - right. left. by rewrite play_no_tracks.
  - right. right. rewrite play_builds by (done || by rewrite Ht). done.
Qed.

Lemma setCurrentTrack_final_shape num s :
  ∃ g, final (setCurrentTrack num s) = set_ctx g (set_currentTrack num s) ∧
       length (AudioContext.gainNodes g) = length (AudioContext.gainNodes (ctx s)) ∧
       AudioContext.sourceNodes g = AudioContext.sourceNodes (ctx s).
Proof.
  destruct (setCurrentTrack_cases num s) as [H|[(eo & en & H)|[H|(eo & H)]]];
    rewrite H; rewrite ?liftX_emit_final; cbn [final].
  - exists (ctx s). by destruct s.
  - eexists. split; [reflexivity|]. norm. by rewrite !length_alter.
  - exists (ctx s). by destruct s.
  - eexists. split; [reflexivity|]. norm. by rewrite !length_alter.
Qed.

Lemma events_buffers_step op s :
  (∀ evt cb, op ≠ Listen evt cb) → events (final (run_op op s)) = events s.
Proof.
  intros Hop. destruct op as [| | |num|track buffer|evt cb]; cbn [run_op].
  - destruct (play_final_cases s) as [-> | [-> | ->]]; done.
  - destruct (stop_frame s) as (g & pcx & ->). done.
  - done.
  - destruct (setCurrentTrack_final_shape num s) as (g & -> & _). done.
  - by rewrite trackDecodedCallback_final.
  - by destruct (Hop evt cb).
Qed.

Lemma buffers_step op s :
  (∀ t b, op ≠ Decoded t b) → buffers (final (run_op op s)) = buffers s.
Proof.
  intros Hop. destruct op as [| | |num|track buffer|evt cb]; cbn [run_op].
  - destruct (play_final_cases s) as [-> | [-> | ->]]; done.
  - destruct (stop_frame s) as (g & pcx & ->). done.
  - done.
  - destruct (setCurrentTrack_final_shape num s) as (g & -> & _). done.
  - by destruct (Hop track buffer).
  - destruct (events s !! evt) as [l|] eqn:He.
    + by rewrite (liftX_add_declared _ _ _ _ He).
    + by rewrite liftX_add_undeclared.
Qed.

Lemma buffer_stays op s (i : Z) :
  is_Some (JSArray.get (buffers s) i) →
  is_Some (JSArray.get (buffers (final (run_op op s))) i).
Proof.
  intros Hi. destruct op as [| | |num|track buffer|evt cb];
    try (rewrite buffers_step; [done|intros; discriminate]).
  cbn [run_op]. rewrite trackDecodedCallback_final. norm.
  destruct (decide (JSArray.indexOf track (tracks s) = i)) as [<- | Hne].
  - destruct (Z.ltb_spec (JSArray.indexOf track (tracks s)) 0) as [Hneg|Hpos].
    + unfold JSArray.get in Hi. rewrite (proj2 (Z.ltb_lt _ _)) in Hi by done.
      by destruct Hi.
    + rewrite JSArray_get_set_eq by done. eauto.
  - by rewrite JSArray_get_set_ne.
Qed.

Lemma loaded_after tks t (i : nat) :
  NoDup tks → tks !! i = Some t →
  ∀ ops s b, tracks s = tks → Decoded t b ∈ ops →
             is_Some (JSArray.get (buffers (exec ops s)) (Z.of_nat i)).
Proof.
  intros Hnd Hi ops. induction ops as [|op ops IH] using rev_ind; intros s b Ht Hin.
  - by apply not_elem_of_nil in Hin.
  - rewrite exec_snoc. apply elem_of_app in Hin as [Hin|Hin].
    + apply buffer_stays. by eapply IH.
    + apply list_elem_of_singleton in Hin. subst op. cbn [run_op].
      rewrite trackDecodedCallback_final. norm. rewrite tracks_exec, Ht.
      unfold JSArray.indexOf. rewrite (indexOf_from_first t tks 0 i Hi), Z.add_0_l.
      * rewrite JSArray_get_set_eq by lia. eauto.
      * intros j Hj Hjt. pose proof (NoDup_lookup _ _ _ _ Hnd Hi Hjt). lia.
Qed.

(** X7: on a track list without repeated track objects, once a decode
    completion has arrived for every track, in any order and interleaved
    with any other calls, every position of the buffer table is filled,
    which is the precondition for [play] to bind a buffer to every
    source. *)
Theorem all_tracks_loaded tks ops :
  NoDup tks →
  (∀ t, t ∈ tks → ∃ b, Decoded t b ∈ ops) →
  all_loaded (exec ops (PlayerEngine tks)).
Proof.
  intros Hnd Hall i Hi. rewrite tracks_exec, PlayerEngine_fields in Hi. cbn [tracks] in Hi.
  destruct (lookup_lt_is_Some_2 tks i Hi) as [t Ht].
  destruct (Hall t) as [b Hb]; [by eapply list_elem_of_lookup_2|].
  by eapply (loaded_after tks t i Hnd Ht).
Qed.

Lemma all_tracks_loaded_witness :
  all_loaded (exec [Decoded track_b 11%nat; Play; Decoded track_a 10%nat]
                (PlayerEngine [track_a; track_b])).
Proof.
  apply all_tracks_loaded.
  - repeat constructor; [|by intros ?%not_elem_of_nil].
    intros Hin. apply list_elem_of_singleton in Hin. discriminate.
  - intros t Ht. apply elem_of_cons in Ht as [-> | Ht].
    + exists 10%nat. right. right. left.
    + apply list_elem_of_singleton in Ht as ->. exists 11%nat. left.
Defined.

(** X8: the track list is fixed by the constructor: no call changes it;
    and the buffer table is written by the decode callback only: a
    history without decode completions leaves it as it was. *)
Theorem tracks_and_buffers_fixed ops s :
  tracks (exec ops s) = tracks s ∧
  ((∀ t b, Decoded t b ∉ ops) → buffers (exec ops s) = buffers s).
Proof.
  split; [apply tracks_exec|].
  induction ops as [|op ops IH] using rev_ind; intros Hno; [done|].
  rewrite exec_snoc, buffers_step.
  - apply IH. intros t b Hin. apply (Hno t b), elem_of_app. by left.
  - intros t b ->. apply (Hno t b), elem_of_app. right. left.
Qed.

Lemma tracks_and_buffers_fixed_witness :
  buffers (exec [Play; Select 1; Stop; Ended] two_loaded) = buffers two_loaded.
Proof.
  apply tracks_and_buffers_fixed. intros t b Hin.
  repeat (apply elem_of_cons in Hin as [Hin|Hin]; [discriminate|]).
  by apply not_elem_of_nil in Hin.
Defined.

(** ** The listener table of the engine *)

Lemma events_domain_step op s e :
  is_Some (events (final (run_op op s)) !! e) ↔ is_Some (events s !! e).
Proof.
  destruct op as [| | |num|track buffer|evt cb];
    try (rewrite events_buffers_step; [done|intros; discriminate]).
  cbn [run_op]. destruct (events s !! evt) as [l|] eqn:He.
  - rewrite (liftX_add_declared _ _ _ _ He). cbn [final]. norm.
    rewrite lookup_insert. case_decide; subst; [|done].
    rewrite He. split; eauto.
  - by rewrite liftX_add_undeclared.
Qed.

(** X9: in every reachable state the engine knows exactly the two events
    its constructor declares; registering a listener for [trackLoaded] or
    [trackChanged] succeeds, and registering for any other name throws a
    [TypeError] and leaves the engine untouched. *)
Theorem engine_events_closed s :
  reachable s →
  (∀ e, is_Some (events s !! e) ↔ (e = "trackLoaded" ∨ e = "trackChanged")) ∧
  (∀ e cb, e ≠ "trackLoaded" → e ≠ "trackChanged" →
           liftX (XObject.addEventListener e cb) s = mkRun (Thrown TypeError) s []) ∧
  (∀ e cb, e = "trackLoaded" ∨ e = "trackChanged" →
           outcome (liftX (XObject.addEventListener e cb) s) = Returned tt ∧
           ∃ l, events s !! e = Some l ∧
                events (final (liftX (XObject.addEventListener e cb) s)) !! e
                = Some (l ++ [cb])).
Proof.
  intros (tks & ops & ->).
  assert (Hdom : ∀ e, is_Some (events (exec ops (PlayerEngine tks)) !! e)
                      ↔ (e = "trackLoaded" ∨ e = "trackChanged")).
  { induction ops as [|op ops IH] using rev_ind; intros e.
    - rewrite PlayerEngine_fields. cbn [exec foldl events].
      rewrite lookup_insert. case_decide as H1; subst.
      { split; eauto. }
      rewrite lookup_insert. case_decide as H2; subst.
      { split; eauto. }
      rewrite lookup_empty. split; [by intros [? ?]|]. intros [?|?]; congruence.
    - rewrite exec_snoc, events_domain_step. apply IH. }
  split; [done|]. split.
  - intros e cb H1 H2. apply liftX_add_undeclared.
    destruct (events (exec ops (PlayerEngine tks)) !! e) eqn:He; [|done].
    destruct (proj1 (Hdom e)) as [?|?]; [eauto|done..].
  - intros e cb He. destruct (proj2 (Hdom e) He) as [l Hl].
    rewrite (liftX_add_declared _ _ _ _ Hl). cbn [outcome final]. split; [done|].
    exists l. split; [done|]. norm. by rewrite lookup_insert_eq.
Qed.

Lemma engine_events_closed_witness :
  let s := exec [Play] two_loaded in
  liftX (XObject.addEventListener "ended" 4%nat) s = mkRun (Thrown TypeError) s [].
Proof.
  intros s.
  assert (Hr : reachable s).
  { exists [track_a; track_b], [Decoded track_a 10%nat; Decoded track_b 11%nat; Play].
    subst s. vm_compute. reflexivity. }
  destruct (engine_events_closed s Hr) as (_ & H & _).
  apply H; discriminate.
Defined.

(** ** Edge cases of the controls *)

(** X10: on an engine without tracks [play()] throws a [TypeError] at
    the registration of the [ended] handler, after it has set
    [playing = true] and an empty session and without touching the
    graph; from then on [play()] and [stop()] return without effect, so
    only [onEnded] can make the engine idle again. *)
Theorem play_without_tracks s :
  tracks s = [] → playing s = false →
  let r := play s in
  outcome r = Thrown TypeError ∧ calls r = [] ∧
  playing (final r) = true ∧ playbackCtx (final r) = Some [] ∧ ctx (final r) = ctx s ∧
  play (final r) = mkRun (Returned tt) (final r) [] ∧
  stop (final r) = mkRun (Returned tt) (final r) [].
Proof.
  intros Ht Hp. cbn zeta. rewrite (play_no_tracks s Hp Ht). cbn [outcome calls final].
  do 5 (split; [done|]). split.
  - by apply play_playing.
  - rewrite (stop_session _ O O O); [by destruct s as [ev [gs ss] bufs tks cur pl pcx]|done..|].
    intros i Hi. lia.
Qed.

Lemma play_without_tracks_witness :
  outcome (play (PlayerEngine [])) = Thrown TypeError ∧
  playing (final (play (PlayerEngine []))) = true.
Proof.
  destruct (play_without_tracks (PlayerEngine [])) as (H1 & _ & H2 & _);
    [reflexivity..|].
  exact (conj H1 H2).
Defined.

(** X11: after [stop()] the engine does not restart until the [ended]
    notification has been delivered: [play()] right after [stop()] is a
    no-op on an empty session, and once [onEnded] has run [play()]
    builds a new session with one entry per track. *)
Theorem restart_needs_ended s :
  reachable s → playing s = true → tracks s ≠ [] →
  let s1 := final (stop s) in
  let s2 := final (onEnded s1) in
  play s1 = mkRun (Returned tt) s1 [] ∧ session_size s1 = O ∧
  outcome (play s2) = Returned tt ∧
  playing (final (play s2)) = true ∧
  session_size (final (play s2)) = length (tracks s).
Proof.
  intros Hr Hp Ht.
  destruct (playing_has_session s (reachable_Inv s Hr) Hp) as (g0 & s0 & n & Hpc & Hn & Hst).
  cbn zeta. rewrite (stop_session s g0 s0 n Hp Hpc Hst). cbn [final].
  split; [by apply play_playing|]. split; [done|].
  unfold onEnded, modify. cbn [final]. norm.
  rewrite play_builds by done. cbn [outcome final].
  split; [done|]. split; [done|].
  unfold played, session_size. norm. apply length_fresh_session.
Qed.

Lemma restart_needs_ended_witness :
  let s := exec [Play] two_loaded in
  play (final (stop s)) = mkRun (Returned tt) (final (stop s)) [] ∧
  session_size (final (play (final (onEnded (final (stop s)))))) = length (tracks s).
Proof.
  intros s.
  assert (Hr : reachable s).
  { exists [track_a; track_b], [Decoded track_a 10%nat; Decoded track_b 11%nat; Play].
    subst s. vm_compute. reflexivity. }
  assert (Hp : playing s = true) by (vm_compute; reflexivity).
  assert (Ht : tracks s ≠ []) by (vm_compute; discriminate).
  pose proof (restart_needs_ended s Hr Hp Ht) as H.
  exact (conj (proj1 H) (proj2 (proj2 (proj2 (proj2 H))))).
Defined.

(** X12: a selection made while the engine is not playing touches
    neither the graph nor the session, and takes effect at the next
    [play()]: the session then built has gain 1 at the selected track and
    0 at every other track. *)
Theorem selection_while_idle num s :
  playing s = false → 0 ≤ num < Z.of_nat (length (tracks s)) →
  let s1 := final (setCurrentTrack num s) in
  ctx s1 = ctx s ∧ playbackCtx s1 = playbackCtx s ∧ playing s1 = false ∧
  outcome (play s1) = Returned tt ∧
  ∀ i, (i < length (tracks s))%nat →
    session_gain (final (play s1)) i = Some (if Z.of_nat i =? num then 1 else 0).
Proof.
  intros Hp Hnum. cbn zeta.
  rewrite setCurrentTrack_quiet by (by rewrite Hp). rewrite liftX_emit_final.
  split; [done|]. split; [done|]. split; [done|].
  assert (Ht : tracks (set_currentTrack num s) ≠ []).
  { norm. intros Ht. rewrite Ht in Hnum. simpl in Hnum. lia. }
  rewrite play_builds by done. cbn [outcome final]. split; [done|].
  intros i Hi. apply (gains_played (set_currentTrack num s)); [done|].
  unfold played, session_size. norm. by rewrite length_fresh_session.
Qed.

Lemma selection_while_idle_witness :
  let s1 := final (setCurrentTrack 1 two_loaded) in
  session_gain (final (play s1)) 1 = Some (if Z.of_nat 1 =? 1 then 1 else 0).
Proof.
  intros s1.
  destruct (selection_while_idle 1 two_loaded) as (_ & _ & _ & _ & H).
  - vm_compute. reflexivity.
  - vm_compute. split; congruence.
  - apply H. vm_compute. lia.
Defined.

(** X13: while a session is playing, [setCurrentTrack] with an index
    outside the track list mutes the current track, then throws a
    [TypeError] before any gain is raised and before the event is
    emitted: the engine is left playing with [currentTrack] out of
    range and every gain of the session at 0. *)
Theorem out_of_range_selection_mutes num s :
  reachable_selecting s → playing s = true → (0 < session_size s)%nat →
  ¬ (0 ≤ num < Z.of_nat (length (tracks s))) →
  let r := setCurrentTrack num s in
  outcome r = Thrown TypeError ∧ calls r = [] ∧
  currentTrack (final r) = num ∧ playing (final r) = true ∧
  session_size (final r) = session_size s ∧
  ∀ i, (i < session_size s)%nat → session_gain (final r) i = Some 0.
Proof.
  intros Hr Hp Hsize Hnum. cbn zeta.
  destruct (reachable_selecting_InvSel s Hr) as (HI & Hrange & Hg).
  destruct (playing_has_session s HI Hp) as (g0 & s0 & n & Hpc & Hn & Hst).
  unfold session_size in Hsize |- *. rewrite Hpc, length_fresh_session in Hsize.
  destruct Hn as [-> | ->]; [lia|].
  destruct Hrange as [Ht|Hcur]; [rewrite Ht in Hsize; simpl in Hsize; lia|].
  unfold current_in_range in Hcur.
  assert (Hne : num ≠ currentTrack s) by (intros ->; done).
  rewrite (setCurrentTrack_no_new num s _ _ Hp Hpc Hne (get_fresh_in _ _ _ _ Hcur))
    by (by apply get_fresh_out).
  cbn [outcome calls final]. norm. rewrite Hpc, length_fresh_session.
  repeat split; try done.
  intros i Hi. specialize (Hg Hp i). unfold session_size in Hg.
  rewrite Hpc, length_fresh_session in Hg. specialize (Hg Hi).
  rewrite (session_gain_fresh _ g0 s0 (length (tracks s))) in Hg by done.
  rewrite (session_gain_fresh _ g0 s0 (length (tracks s))) by done. norm.
  destruct (AudioContext.gainNodes (ctx s) !! (g0 + i)%nat) as [g|] eqn:Hlk; [|done].
  destruct (Z.eqb_spec (Z.of_nat i) (currentTrack s)) as [Hio|Hio].
  - replace (g0 + Z.to_nat (currentTrack s))%nat with (g0 + i)%nat by lia.
    by rewrite list_lookup_alter_eq, Hlk.
  - rewrite list_lookup_alter_ne by lia. by rewrite Hlk.
Qed.

Lemma out_of_range_selection_mutes_witness :
  let s := exec [Play] two_loaded in
  outcome (setCurrentTrack 2 s) = Thrown TypeError ∧
  ∀ i, (i < session_size s)%nat → session_gain (final (setCurrentTrack 2 s)) i = Some 0.
Proof.
  intros s.
  assert (Hr : reachable_selecting s).
  { exists [track_a; track_b], [Decoded track_a 10%nat; Decoded track_b 11%nat; Play].
    split; [|subst s; vm_compute; reflexivity]. repeat constructor. }
  destruct (out_of_range_selection_mutes 2 s Hr) as (H1 & _ & _ & _ & _ & H2).
  - vm_compute. reflexivity.
  - vm_compute. lia.
  - vm_compute. intros [_ H]. discriminate.
  - exact (conj H1 H2).
Defined.

(** ** Who calls listeners, and the loader *)

Lemma bind_calls_nil {St A B} (m : M St A) (k : A → M St B) s :
  calls (m s) = [] → (∀ a s', calls (k a s') = []) → calls ((m ≫= k) s) = [].
Proof.
  intros Hm Hk. unfold mbind, M_bind, bind.
  destruct (outcome (m s)); cbn [calls]; [|done]. by rewrite Hm, Hk.
Qed.

Lemma for_loop_calls_nil {St} (body : nat → M St unit) :
  (∀ i s, calls (body i s) = []) → ∀ n i s, calls (for_loop n i body s) = [].
Proof.
  intros Hb n. induction n as [|n IH]; intros i s; [done|].
  cbn [for_loop]. apply bind_calls_nil; [apply Hb|]. intros _ s'. apply IH.
Qed.

Lemma gets_defined_calls {St A} (f : St → option A) s : calls ((gets f ≫= defined) s) = [].
Proof.
  destruct (f s) as [a|] eqn:Hf.
  - by rewrite (gets_defined f s a Hf).
  - by rewrite (gets_undefined f s Hf).
Qed.

Lemma stop_body_calls i s : calls (stop_body i s) = [].
Proof.
  unfold stop_body. apply bind_calls_nil; [apply gets_defined_calls|].
  intros e s'. unfold graph_try. by destruct (AudioContext.stop (sourceNode e) 0 (ctx s')).
Qed.

(** X14: [play], [stop], [onEnded] and the registration of a listener
    never call a listener, in any state and however they end: the only
    notifications of the engine are [trackChanged] from
    [setCurrentTrack] and [trackLoaded] from the decode callback, so a
    listener cannot observe that playback started or stopped. *)
Theorem controls_notify_nobody s :
  calls (play s) = [] ∧ calls (stop s) = [] ∧ calls (onEnded s) = [] ∧
  ∀ evt cb, calls (liftX (XObject.addEventListener evt cb) s) = [].
Proof.
  split; [|split; [|split]].
  - destruct (playing s) eqn:Hp; [by rewrite play_playing|].
    destruct (tracks s) as [|t tks] eqn:Ht.
    + by rewrite play_no_tracks.
    + rewrite play_builds by (done || by rewrite Ht). done.
  - unfold stop. run_pure. destruct (playing s); cbn [negb]; [|done].
    apply bind_calls_nil; [apply gets_defined_calls|]. intros pc s'.
    apply bind_calls_nil; [|done].
    apply for_loop_calls_nil, stop_body_calls.
  - done.
  - intros evt cb. destruct (events s !! evt) as [l|] eqn:He.
    + by rewrite (liftX_add_declared _ _ _ _ He).
    + by rewrite liftX_add_undeclared.
Qed.

Lemma loadSingleTrack_in_range canPlayType i s t :
  tracks s !! i = Some t →
  loadSingleTrack canPlayType i s = mkRun (Returned (t, selectTrackUri canPlayType t)) s [].
Proof.
  intros Ht. unfold loadSingleTrack.
  erewrite bind_pure; [done|]. by apply (gets_defined (λ this, tracks this !! i)).
Qed.

Lemma loadTracks_loop canPlayType s k :
  ∀ i, (i + k ≤ length (tracks s))%nat →
       for_loop k i (λ i, loadSingleTrack canPlayType i;; mret tt) s
       = mkRun (Returned tt) s [].
Proof.
  induction k as [|k IH]; intros i Hik; [done|].
  cbn [for_loop]. destruct (lookup_lt_is_Some_2 (tracks s) i) as [t Ht]; [lia|].
  erewrite bind_pure.
  2:{ erewrite bind_pure; [|by apply loadSingleTrack_in_range]. reflexivity. }
  apply IH. lia.
Qed.

(** X15: [loadSingleTrack(i)] hands the host the track at position [i]
    with the URI [selectTrackUri] picks for it (possibly [undefined]) and
    leaves the engine as it was; for a position outside the track list it
    throws a [TypeError]; [loadTracks] visits the positions of the list
    only, so it always returns normally, even on an empty list or when no
    source is playable, and changes nothing in the engine. *)
Theorem loader_requests canPlayType s :
  (∀ i t, tracks s !! i = Some t →
     loadSingleTrack canPlayType i s
     = mkRun (Returned (t, selectTrackUri canPlayType t)) s []) ∧
  (∀ i, tracks s !! i = None →
     loadSingleTrack canPlayType i s = mkRun (Thrown TypeError) s []) ∧
  loadTracks canPlayType s = mkRun (Returned tt) s [].
Proof.
  split; [|split].
  - intros i t. apply loadSingleTrack_in_range.
  - intros i Hi. unfold loadSingleTrack.
    erewrite bind_throw; [done|]. by apply (gets_undefined (λ this, tracks this !! i)).
  - unfold loadTracks. run_pure. apply loadTracks_loop. lia.
Qed.

Lemma loader_requests_witness :
  loadSingleTrack (λ _, Probably) 1 two_loaded
  = mkRun (Returned (track_b, selectTrackUri (λ _, Probably) track_b)) two_loaded [] ∧
  loadSingleTrack (λ _, Probably) 2 two_loaded = mkRun (Thrown TypeError) two_loaded [].
Proof.
  destruct (loader_requests (λ _, Probably) two_loaded) as (H1 & H2 & _).
  split; [apply H1|apply H2]; vm_compute; reflexivity.
Defined.

(** ** The graph over histories *)

Lemma length_stop_range k : ∀ h l, length (stop_range h k l) = length l.
Proof.
  induction k as [|k IH]; intros h l; simpl; [done|].
  by rewrite IH, length_alter.
Qed.

Lemma node_counts_step op s :
  Inv s → op ≠ Play →
  gain_count (final (run_op op s)) = gain_count s ∧
  source_count (final (run_op op s)) = source_count s.
Proof.
  intros HI Hop. unfold gain_count, source_count.
  destruct op as [| | |num|track buffer|evt cb]; cbn [run_op]; [done| | | | |].
  - destruct (playing s) eqn:Hp; [|by rewrite stop_idle].
    destruct (playing_has_session s HI Hp) as (g0 & s0 & n & Hpc & _ & Hst).
    rewrite (stop_session s g0 s0 n Hp Hpc Hst). cbn [final]. norm.
    by rewrite length_stop_range.
  - done.
  - destruct (setCurrentTrack_final_shape num s) as (g & -> & Hg & Hs). norm.
    by rewrite Hg, Hs.
  - by rewrite trackDecodedCallback_final.
  - destruct (events s !! evt) as [l|] eqn:He.
    + by rewrite (liftX_add_declared _ _ _ _ He).
    + by rewrite liftX_add_undeclared.
Qed.

Lemma node_counts_play s :
  (gain_count (final (play s)) = gain_count s ∧
   source_count (final (play s)) = source_count s) ∨
  (playing s = false ∧ tracks s ≠ [] ∧
   gain_count (final (play s)) = (gain_count s + length (tracks s))%nat ∧
   source_count (final (play s)) = (source_count s + length (tracks s))%nat).
Proof.
  unfold gain_count, source_count.
  destruct (playing s) eqn:Hp; [left; by rewrite play_playing|].
  destruct (tracks s) as [|t tks] eqn:Ht.
  - left. by rewrite play_no_tracks.
  - right. rewrite play_builds by (done || by rewrite Ht).
    split; [done|]. split; [done|]. cbn [final]. unfold played. norm.
    rewrite length_alter, !length_app, !length_fmap, !length_seq. by rewrite Ht.
Qed.

(** X16: nodes are created by [play] only, and only when it builds a
    session: a building [play] adds one gain node and one source node per
    track, and every other call leaves the number of nodes as it is (no
    call removes a node).  Hence in every reachable state the graph holds
    as many gain nodes as source nodes, a multiple of the number of
    tracks. *)
Theorem graph_grows_by_play_only :
  (∀ op s, reachable s → op ≠ Play →
     gain_count (final (run_op op s)) = gain_count s ∧
     source_count (final (run_op op s)) = source_count s) ∧
  (∀ s, playing s = false → tracks s ≠ [] →
     gain_count (final (play s)) = (gain_count s + length (tracks s))%nat ∧
     source_count (final (play s)) = (source_count s + length (tracks s))%nat) ∧
  (∀ s, playing s = true ∨ tracks s = [] →
     gain_count (final (play s)) = gain_count s ∧
     source_count (final (play s)) = source_count s) ∧
  (∀ s, reachable s →
     gain_count s = source_count s ∧
     ∃ k, gain_count s = (k * length (tracks s))%nat).
Proof.
  split; [|split; [|split]].
  - intros op s Hr. apply node_counts_step. by apply reachable_Inv.
  - intros s Hp Ht. destruct (node_counts_play s) as [[Hg Hs]|(_ & _ & Hg & Hs)]; [|done].
    unfold gain_count, source_count in *. rewrite play_builds in Hg, Hs by done.
    cbn [final] in Hg, Hs. unfold played in Hg, Hs. norm_in Hg. norm_in Hs.
    rewrite length_app, length_fmap, length_seq in Hg.
    destruct (tracks s); [done|]. simpl in Hg. lia.
  - intros s Hcase. destruct (node_counts_play s) as [?|(Hp & Ht & _)]; [done|].
    destruct Hcase; congruence.
  - intros s (tks & ops & ->).
    induction ops as [|op ops IH] using rev_ind.
    { rewrite PlayerEngine_fields. split; [done|]. by exists O. }
    rewrite exec_snoc, tracks_step. destruct IH as [Heq [k Hk]].
    set (s' := exec ops (PlayerEngine tks)) in *.
    assert (Hcase : op = Play ∨ op ≠ Play).
    { destruct op; (by left) || (right; discriminate). }
    destruct Hcase as [-> | Hop].
    + cbn [run_op].
      destruct (node_counts_play s') as [[Hg Hs]|(_ & _ & Hg & Hs)].
      * rewrite Hg, Hs. split; [done|]. by exists k.
      * rewrite Hg, Hs. split; [lia|]. exists (S k). lia.
    + assert (HI : Inv s') by apply Inv_exec, Inv_init.
      destruct (node_counts_step op s' HI Hop) as [Hg Hs].
      rewrite Hg, Hs. split; [done|]. by exists k.
Qed.

Lemma graph_grows_by_play_only_witness :
  let s := exec [Play; Stop; Ended] two_loaded in
  gain_count (final (play s)) = (gain_count s + length (tracks s))%nat ∧
  gain_count (final (stop s)) = gain_count s.
Proof.
  intros s.
  destruct graph_grows_by_play_only as (Hother & Hplay & _ & _).
  assert (Hp : playing s = false) by (vm_compute; reflexivity).
  assert (Ht : tracks s ≠ []) by (vm_compute; discriminate).
  assert (Hr : reachable s).
  { exists [track_a; track_b],
      [Decoded track_a 10%nat; Decoded track_b 11%nat; Play; Stop; Ended].
    subst s. vm_compute. reflexivity. }
  assert (Hop : Stop ≠ Play) by discriminate.
  exact (conj (proj1 (Hplay s Hp Ht)) (proj1 (Hother Stop s Hr Hop))).
Defined.

(** ** Nodes of a session that is over *)

Lemma get_fresh_Z_inv g0 s0 n (z : Z) e :
  JSArray.get (fresh_session g0 s0 n) z = Some e →
  0 ≤ z < Z.of_nat n ∧ e = mkEntry (g0 + Z.to_nat z) (s0 + Z.to_nat z).
Proof.
  intros H. destruct (decide (0 ≤ z < Z.of_nat n)) as [Hz|Hz].
  - rewrite get_fresh_in in H by done. split; [done|congruence].
  - by rewrite get_fresh_out in H.
Qed.

Lemma nodes_kept_refl g : nodes_kept g g.
Proof. by split. Qed.

Lemma nodes_kept_set_value g g' h v :
  (length (AudioContext.gainNodes g) ≤ h)%nat →
  nodes_kept g g' → nodes_kept g (AudioContext.set_value h v g').
Proof.
  intros Hh [Hg Hs]. split; norm; [|done].
  intros k Hk. rewrite list_lookup_alter_ne by lia. by apply Hg.
Qed.

(** What the later state [s'] keeps of the graph [g] of an earlier one. *)
Lemma kept_step g op s' :
  nodes_kept g (ctx s') →
  (length (AudioContext.gainNodes g) ≤ gain_count s')%nat →
  (length (AudioContext.sourceNodes g) ≤ source_count s')%nat →
  session_above g s' →
  let s'' := final (run_op op s') in
  nodes_kept g (ctx s'') ∧
  (length (AudioContext.gainNodes g) ≤ gain_count s'')%nat ∧
  (length (AudioContext.sourceNodes g) ≤ source_count s'')%nat ∧
  session_above g s''.
Proof.
  intros Hk Hlg Hls Hab. cbn zeta. unfold gain_count, source_count in *.
  destruct op as [| | |num|track buffer|evt cb]; cbn [run_op].
  - (* play *)
    destruct (playing s') eqn:Hp; [by rewrite play_playing|].
    destruct (tracks s') as [|t tks] eqn:Ht.
    + rewrite play_no_tracks by done. cbn [final]. norm.
      do 3 (split; [done|]). intros _.
      exists (length (AudioContext.gainNodes g)), (length (AudioContext.sourceNodes g)), O.
      norm. repeat split; try done. intros i Hi. lia.
    + rewrite play_builds by (done || by rewrite Ht). cbn [final].
      destruct (played_old_nodes s') as [Hog Hos]. destruct Hk as [Hkg Hks].
      split; [|split; [|split]].
      * split; intros h Hh.
        -- rewrite Hog by lia. by apply Hkg.
        -- rewrite Hos by lia. by apply Hks.
      * unfold played. norm. rewrite length_app. lia.
      * unfold played. norm. rewrite length_alter, length_app. lia.
      * intros _. exists (length (AudioContext.gainNodes (ctx s'))),
                  (length (AudioContext.sourceNodes (ctx s'))), (length (tracks s')).
        split; [done|]. split; [done|]. split; [done|].
        unfold played. norm. apply sources_started_played.
  - (* stop *)
    destruct (playing s') eqn:Hp; [|by rewrite stop_idle].
    destruct (Hab Hp) as (g0 & s0 & n & Hpc & Hg0 & Hs0 & Hst).
    rewrite (stop_session s' g0 s0 n Hp Hpc Hst). cbn [final]. norm.
    destruct Hk as [Hkg Hks]. split; [|split; [|split]].
    + split; norm; [done|]. intros h Hh.
      rewrite stop_range_lookup, bool_decide_eq_false_2 by lia. by apply Hks.
    + done.
    + by rewrite length_stop_range.
    + intros _.
      exists (length (AudioContext.gainNodes g)), (length (AudioContext.sourceNodes g)), O.
      norm. repeat split; try done. intros i Hi. lia.
  - (* onEnded *)
    unfold onEnded, modify. cbn [final]. norm. do 3 (split; [done|]).
    intros Hp. discriminate.
  - (* setCurrentTrack *)
    destruct (playing s') eqn:Hp.
    2:{ rewrite setCurrentTrack_quiet by (by rewrite Hp). rewrite liftX_emit_final.
        norm. do 3 (split; [done|]). intros Hp'. norm_in Hp'. congruence. }
    destruct (Hab Hp) as (g0 & s0 & n & Hpc & Hg0 & Hs0 & Hst).
    assert (Hsame : session_above g (set_currentTrack num s')).
    { intros _. exists g0, s0, n. by norm. }
    destruct (decide (num = currentTrack s')) as [->|Hne].
    { rewrite setCurrentTrack_quiet.
      - rewrite liftX_emit_final. by norm.
      - rewrite Z.eqb_refl. cbn [negb]. by rewrite andb_false_r. }
    destruct (JSArray.get (fresh_session g0 s0 n) (currentTrack s')) as [eo|] eqn:Ho.
    2:{ rewrite (setCurrentTrack_no_old _ _ _ Hp Hpc Hne Ho). cbn [final]. by norm. }
    apply get_fresh_Z_inv in Ho as Ho'. destruct Ho' as [_ ->].
    destruct (JSArray.get (fresh_session g0 s0 n) num) as [en|] eqn:Hn.
    + apply get_fresh_Z_inv in Hn as Hn'. destruct Hn' as [_ ->].
      rewrite (setCurrentTrack_switch _ _ _ _ _ Hp Hpc Hne Ho Hn), liftX_emit_final.
      cbn [gainNode]. split; [|split; [|split]].
      * cbn [ctx set_ctx]. unfold set_ctx. cbn [ctx].
        apply nodes_kept_set_value; [lia|]. apply nodes_kept_set_value; [lia|done].
      * norm. by rewrite !length_alter.
      * by norm.
      * intros _. exists g0, s0, n. by norm.
    + rewrite (setCurrentTrack_no_new _ _ _ _ Hp Hpc Hne Ho Hn). cbn [final gainNode].
      split; [|split; [|split]].
      * unfold set_ctx. cbn [ctx]. apply nodes_kept_set_value; [lia|done].
      * norm. by rewrite !length_alter.
      * by norm.
      * intros _. exists g0, s0, n. by norm.
  - (* trackDecodedCallback *)
    rewrite trackDecodedCallback_final. by norm.
  - (* addEventListener *)
    destruct (events s' !! evt) as [l|] eqn:He.
    + rewrite (liftX_add_declared _ _ _ _ He). by norm.
    + by rewrite liftX_add_undeclared.
Qed.

(** X17: once the engine is not playing, no later call touches a node
    the graph holds at that moment: each such gain and source node stays
    exactly as it is, whatever is called afterwards.  In particular the
    sources of a session that ended through [onEnded] without [stop()]
    are never stopped, and its gains are never changed. *)
Theorem idle_graph_is_final s ops :
  playing s = false → nodes_kept (ctx s) (ctx (exec ops s)).
Proof.
  intros Hp.
  enough (H : nodes_kept (ctx s) (ctx (exec ops s)) ∧
              (length (AudioContext.gainNodes (ctx s)) ≤ gain_count (exec ops s))%nat ∧
              (length (AudioContext.sourceNodes (ctx s)) ≤ source_count (exec ops s))%nat ∧
              session_above (ctx s) (exec ops s)) by apply H.
  induction ops as [|op ops IH] using rev_ind.
  - split; [apply nodes_kept_refl|]. do 2 (split; [done|]). intros Hp'. simpl in Hp'. congruence.
  - rewrite exec_snoc. destruct IH as (H1 & H2 & H3 & H4).
    by apply kept_step.
Qed.

Lemma idle_graph_is_final_witness :
  let s := exec [Play; Ended] two_loaded in
  nodes_kept (ctx s) (ctx (exec [Stop; Select 1; Play; Select 0; Stop] s)).
Proof.
  intros s. apply idle_graph_is_final. vm_compute. reflexivity.
Defined.

(** ** The wiring of the session *)

Lemma entry_wired_set_value g i e h v :
  entry_wired g i e → entry_wired (AudioContext.set_value h v g) i e.
Proof.
  intros [[w Hg] Hs]. split; norm; [|done].
  destruct (decide (h = gainNode e)) as [->|Hne].
  - exists v. by rewrite list_lookup_alter_eq, Hg.
  - exists w. by rewrite list_lookup_alter_ne.
Qed.

Lemma session_wired_frame s s' :
  playbackCtx s' = playbackCtx s → ctx s' = ctx s → session_wired s → session_wired s'.
Proof. unfold session_wired. by intros -> ->. Qed.

Lemma session_wired_empty s : playbackCtx s = Some [] → session_wired s.
Proof.
  unfold session_wired. intros ->. exists O, O, O. split; [done|]. intros i Hi. lia.
Qed.

Lemma session_wired_set_value s h v :
  session_wired s → session_wired (set_ctx (AudioContext.set_value h v (ctx s)) s).
Proof.
  unfold session_wired. norm. destruct (playbackCtx s) as [pc|]; [|done].
  intros (g0 & s0 & n & -> & Hw). exists g0, s0, n. split; [done|].
  intros i Hi. by apply (entry_wired_set_value (ctx s)), Hw.
Qed.

Lemma session_wired_started s g0 s0 n :
  session_wired s → playbackCtx s = Some (fresh_session g0 s0 n) →
  sources_started (AudioContext.sourceNodes (ctx s)) s0 n.
Proof.
  unfold session_wired. intros Hw Hpc. rewrite Hpc in Hw.
  destruct Hw as (g0' & s0' & n' & Heq & Hw). intros i Hi.
  assert (Hn : n' = n).
  { apply (f_equal length) in Heq. by rewrite !length_fresh_session in Heq. }
  subst n'.
  assert (He : fresh_entry g0 s0 i = fresh_entry g0' s0' i).
  { apply (f_equal (λ l, l !! i)) in Heq. unfold fresh_session in Heq.
    rewrite !list_lookup_fmap, !lookup_seq_lt in Heq by done.
    cbn [fmap option_fmap option_map Nat.add] in Heq. congruence. }
  injection He as Hg Hs. destruct (Hw i Hi) as [_ [b Hb]]. cbn [sourceNode gainNode] in Hb.
  rewrite Hs. eexists. split; [exact Hb|]. simpl. eauto.
Qed.

Lemma session_wired_played s : session_wired (played s).
Proof.
  unfold session_wired. unfold played at 1. norm.
  exists (length (AudioContext.gainNodes (ctx s))),
         (length (AudioContext.sourceNodes (ctx s))), (length (tracks s)).
  split; [done|]. intros i Hi. split; cbn [gainNode sourceNode].
  - eexists. by apply played_gain.
  - eexists. by apply played_source.
Qed.

Lemma session_wired_step op s : session_wired s → session_wired (final (run_op op s)).
Proof.
  intros Hw. destruct op as [| | |num|track buffer|evt cb]; cbn [run_op].
  - destruct (playing s) eqn:Hp; [by rewrite play_playing|].
    destruct (tracks s) as [|t tks] eqn:Ht.
    + rewrite play_no_tracks by done. by apply session_wired_empty.
    + rewrite play_builds by (done || by rewrite Ht). apply session_wired_played.
  - destruct (playing s) eqn:Hp; [|by rewrite stop_idle].
    destruct (playbackCtx s) as [pc|] eqn:Hpc.
    2:{ unfold stop. run_pure. rewrite Hp. cbn [negb].
        erewrite bind_throw; [done|]. by apply gets_undefined. }
    pose proof Hw as Hw'. unfold session_wired in Hw'. rewrite Hpc in Hw'.
    destruct Hw' as (g0 & s0 & n & -> & _).
    rewrite (stop_session s g0 s0 n Hp Hpc) by (by apply (session_wired_started s g0 s0 n)).
    by apply session_wired_empty.
  - by eapply session_wired_frame; [..|exact Hw].
  - destruct (setCurrentTrack_cases num s) as [H|[(eo & en & H)|[H|(eo & H)]]];
      rewrite H; rewrite ?liftX_emit_final; cbn [final].
    + by eapply session_wired_frame; [..|exact Hw].
    + apply (session_wired_set_value
               (set_ctx (AudioContext.set_value (gainNode eo) 0 (ctx s))
                  (set_currentTrack num s))).
      apply (session_wired_set_value (set_currentTrack num s)).
      by eapply session_wired_frame; [..|exact Hw].
    + by eapply session_wired_frame; [..|exact Hw].
    + apply (session_wired_set_value (set_currentTrack num s)).
      by eapply session_wired_frame; [..|exact Hw].
  - rewrite trackDecodedCallback_final. by eapply session_wired_frame; [..|exact Hw].
  - destruct (events s !! evt) as [l|] eqn:He.
    + rewrite (liftX_add_declared _ _ _ _ He). by eapply session_wired_frame; [..|exact Hw].
    + by rewrite liftX_add_undeclared.
Qed.

(** X18: in every reachable state, each entry the session holds is wired
    as [play] built it: its gain node feeds the destination, its source
    feeds that gain node, was started at time 0 and has had no [stop]
    call, and the [ended] handler sits on the source of track 0 and on no
    other.  So [stop()] always finds sources it may stop, and the wiring
    survives every selection. *)
Theorem session_stays_wired s i e :
  reachable s → session_entry s i = Some e → entry_wired (ctx s) i e.
Proof.
  intros (tks & ops & ->) He.
  assert (Hw : session_wired (exec ops (PlayerEngine tks))).
  { clear He. induction ops as [|op ops IH] using rev_ind; [done|].
    rewrite exec_snoc. by apply session_wired_step. }
  unfold session_wired in Hw. unfold session_entry in He.
  destruct (playbackCtx (exec ops (PlayerEngine tks))) as [pc|]; [|done].
  destruct Hw as (g0 & s0 & n & -> & Hw). cbn [mbind option_bind] in He.
  apply get_fresh_inv in He as [Hi ->]. by apply Hw.
Qed.

Lemma session_stays_wired_witness :
  let s := exec [Play; Select 1; Select 0] two_loaded in
  entry_wired (ctx s) 1 (mkEntry 1 1).
Proof.
  intros s. apply session_stays_wired.
  - exists [track_a; track_b],
      [Decoded track_a 10%nat; Decoded track_b 11%nat; Play; Select 1; Select 0].
    subst s. vm_compute. reflexivity.
  - vm_compute. reflexivity.
Defined.

(** X19: [play] does not look whether the buffers are loaded: from any
    state that is not playing, on a non-empty track list, it returns
    normally and starts one source per track; the source of track [i] is
    bound to whatever the buffer table holds at [i] when [play] runs, and
    has no buffer when that position is still empty (the host stores an
    [undefined] buffer as [null]). *)
Theorem play_does_not_check_buffers s :
  playing s = false → tracks s ≠ [] →
  outcome (play s) = Returned tt ∧
  ∀ i, (i < length (tracks s))%nat →
    ∃ src, session_source (final (play s)) i = Some src ∧
           AudioContext.buffer src = JSArray.get (buffers s) (Z.of_nat i) ∧
           AudioContext.started src = Some 0.
Proof.
  intros Hp Ht. rewrite (play_builds s Hp Ht). cbn [outcome final]. split; [done|].
  intros i Hi. rewrite (session_source_entry _ _ _ (played_entry s i Hi)).
  cbn [sourceNode]. rewrite played_source by done. eexists. by split.
Qed.

Lemma play_does_not_check_buffers_witness :
  let s := PlayerEngine [track_a; track_b] in
  outcome (play s) = Returned tt ∧
  ∃ src, session_source (final (play s)) 1 = Some src ∧
         AudioContext.buffer src = JSArray.get (buffers s) (Z.of_nat 1) ∧
         AudioContext.started src = Some 0.
Proof.
  intros s.
  assert (Hp : playing s = false) by reflexivity.
  assert (Ht : tracks s ≠ []) by discriminate.
  pose proof (play_does_not_check_buffers s Hp Ht) as [H1 H2].
  split; [exact H1|]. apply H2. simpl. lia.
Defined.
